(** * core-js-101, [src/05-objects-tasks.js]

    A shallow embedding of the three utilities of the module (the
    [Rectangle] constructor, the JSON codec [getJSON]/[fromJSON], and the
    css selector builder [CssBuilder] with its facade
    [cssSelectorBuilder]) and the properties of the specification that are
    checked against them. *)

From Stdlib Require Import ZArith NArith String List Bool Lia Floats.
From Stdlib Require Import DecimalFacts DecimalN Sorted.
From stdpp Require Import base option list gmap.
Import ListNotations.

Local Open Scope string_scope.
Local Open Scope Z_scope.

(** ** Outcomes of a JavaScript call

    A call either returns a value or throws.  The builder throws plain
    [Error] objects that differ only by their message, so an exception is
    represented by its message; the [TypeError] and the [SyntaxError] of
    the built-ins are represented by their kind alone, their message being
    the engine's. *)

Inductive exn : Type :=
| Error (message : string)
| TypeError
| SyntaxError.

Inductive outcome (A : Type) : Type :=
| Return (a : A)
| Throw (e : exn).
Arguments Return {A} a.
Arguments Throw {A} e.

(** A computation over a mutable store [S]: the store after the call,
    and the value returned or the exception thrown.  Whatever was mutated
    before a [throw] stays mutated. *)
Definition St (S A : Type) : Type := S -> outcome A * S.

Definition ret {S A} (a : A) : St S A := fun s => (Return a, s).
Definition throw {S A} (e : exn) : St S A := fun s => (Throw e, s).
Definition bind {S A B} (m : St S A) (k : A -> St S B) : St S B :=
  fun s =>
    match m s with
    | (Return a, s') => k a s'
    | (Throw e, s') => (Throw e, s')
    end.
Definition get {S} : St S S := fun s => (Return s, s).
Definition put {S} (s : S) : St S unit := fun _ => (Return tt, s).
Definition modify {S} (f : S -> S) : St S unit := fun s => (Return tt, f s).

Notation "x <- m ;; k" := (bind m (fun x => k))
  (at level 100, m at next level, right associativity).
Notation "m ;; k" := (bind m (fun _ => k))
  (at level 100, right associativity).

(** ** [Rectangle] *)

Module Shapes.

(** A JavaScript number is an IEEE 754 binary64 value, and [*] on numbers
    is its multiplication: they are Rocq's primitive floats. *)
Definition number : Type := PrimFloat.float.

(** The two data properties a [new Rectangle(width, height)] has.  Its
    third property, [getArea], is the arrow function of the constructor,
    which closes over the object itself. *)
Record Rectangle : Type := mkRectangle {
  width : number;
  height : number
}.

Definition new_Rectangle (width height : number) : Rectangle :=
  {| width := width; height := height |}.

(** [r.getArea()]: the body [this.width * this.height], evaluated on the
    object as it is when the call is made. *)
Definition getArea (this : Rectangle) : number :=
  PrimFloat.mul (width this) (height this).

(** The assignments [r.width = v] and [r.height = v]. *)
Definition set_width (v : number) (this : Rectangle) : Rectangle :=
  {| width := v; height := height this |}.
Definition set_height (v : number) (this : Rectangle) : Rectangle :=
  {| width := width this; height := v |}.

End Shapes.

(** ** The platform's [JSON] object

    [getJSON] and [fromJSON] are one call each to [JSON.stringify] and
    [JSON.parse].  This module gives the two built-ins the meaning ECMA-262
    gives them (sections 25.5.1 and 25.5.2), called with one argument. *)

Module JSON.
Local Open Scope list_scope.

(** A string is a sequence of UTF-16 code units. *)
Abbreviation text := (list N).

(** The code units of a literal written in ASCII. *)
Definition utf16 (s : string) : text :=
  map Ascii.N_of_ascii (list_ascii_of_string s).

#[local] Set Warnings "-register-all".

(** The values [JSON.parse] can return.  A number is held exactly when it
    is a safe integer, [Number z] with [z] between [-(2^53 - 1)] and
    [2^53 - 1]; any other number is held as a literal that denotes it, not
    interpreted.  The properties of an object are listed in the order
    JavaScript lists its own keys in: the array-index keys first, in
    ascending order, then the other keys in the order they were created in
    ([define] keeps a list in that order, [own_order] tells it). *)
Inductive value : Type :=
| Null
| Bool (b : bool)
| Number (z : Z)
| NumberLiteral (literal : text)
| Str (s : text)
| Array (elements : list value)
| Object (properties : list (text * value)).

Definition MAX_SAFE_INTEGER : Z := 9007199254740991.

(** *** Tokens *)

Inductive token : Type :=
| LBrace | RBrace | LBracket | RBracket | Colon | Comma
| TString (s : text)
| TNumber (literal : text)
| TTrue | TFalse | TNull.

(** *** Numbers

    The code units named below: 45 is the minus sign, 43 the plus sign, 46
    the point, 48 to 57 the digits, 101 and 69 the letter e in both cases. *)

Definition is_digit (c : N) : bool := ((48 <=? c) && (c <=? 57))%N.

Fixpoint uint_text (u : Decimal.uint) : text :=
  match u with
  | Decimal.Nil => []
  | Decimal.D0 u => 48 :: uint_text u
  | Decimal.D1 u => 49 :: uint_text u
  | Decimal.D2 u => 50 :: uint_text u
  | Decimal.D3 u => 51 :: uint_text u
  | Decimal.D4 u => 52 :: uint_text u
  | Decimal.D5 u => 53 :: uint_text u
  | Decimal.D6 u => 54 :: uint_text u
  | Decimal.D7 u => 55 :: uint_text u
  | Decimal.D8 u => 56 :: uint_text u
  | Decimal.D9 u => 57 :: uint_text u
  end%N.

(** The digits of a run of digits (a code unit that is no digit counts
    as a nine; [number_of_literal] checks the spelling afterwards). *)
Fixpoint text_uint (s : text) : Decimal.uint :=
  match s with
  | [] => Decimal.Nil
  | c :: s =>
      (if c =? 48 then Decimal.D0 else if c =? 49 then Decimal.D1
       else if c =? 50 then Decimal.D2 else if c =? 51 then Decimal.D3
       else if c =? 52 then Decimal.D4 else if c =? 53 then Decimal.D5
       else if c =? 54 then Decimal.D6 else if c =? 55 then Decimal.D7
       else if c =? 56 then Decimal.D8 else Decimal.D9)%N (text_uint s)
  end.

(** [Number::toString] of an integer below [10^21]: its decimal digits,
    after a minus sign when it is negative. *)
Definition integer_text (z : Z) : text :=
  (if z <? 0 then [45%N] else []) ++ uint_text (N.to_uint (Z.abs_N z)).

(** The integer a run of digits denotes, after an optional minus sign. *)
Definition integer_value (s : text) : Z :=
  match s with
  | c :: s' =>
      if (c =? 45)%N then - Z.of_N (N.of_uint (text_uint s'))
      else Z.of_N (N.of_uint (text_uint s))
  | [] => 0
  end.

(** The longest run of digits a text starts with, and what follows it. *)
Fixpoint digits (s : text) : text * text :=
  match s with
  | c :: s' =>
      if is_digit c then let '(d, rest) := digits s' in (c :: d, rest)
      else ([], s)
  | [] => ([], [])
  end.

(** The number token a text starts with: an optional minus sign; then a
    zero, or a digit from one to nine and any digits; then, optionally, a
    point and one digit or more; then, optionally, an [e] or [E], an
    optional sign and one digit or more. *)
Definition scan_int (s : text) : option (text * text) :=
  match s with
  | c :: s' =>
      if (c =? 48)%N then Some ([c], s')
      else if is_digit c then let '(d, rest) := digits s' in Some (c :: d, rest)
      else None
  | [] => None
  end.

Definition scan_frac (s : text) : option (text * text) :=
  match s with
  | c :: s' =>
      if (c =? 46)%N then
        match digits s' with
        | ([], _) => None
        | (d, rest) => Some (c :: d, rest)
        end
      else Some ([], s)
  | [] => Some ([], s)
  end.

Definition scan_exp (s : text) : option (text * text) :=
  match s with
  | c :: s' =>
      if ((c =? 101) || (c =? 69))%N then
        let '(sign, s'') :=
          match s' with
          | g :: s'' => if ((g =? 43) || (g =? 45))%N then ([g], s'') else ([], s')
          | [] => ([], s')
          end in
        match digits s'' with
        | ([], _) => None
        | (d, rest) => Some (c :: sign ++ d, rest)
        end
      else Some ([], s)
  | [] => Some ([], s)
  end.

Definition scan_sign (s : text) : text * text :=
  match s with
  | c :: s' => if (c =? 45)%N then ([c], s') else ([], s)
  | [] => ([], s)
  end.

Definition scan_number (s : text) : option (text * text) :=
  let '(sign, s) := scan_sign s in
  '(int, s) ← scan_int s;
  '(frac, s) ← scan_frac s;
  '(exp, s) ← scan_exp s;
  Some (sign ++ int ++ frac ++ exp, s).

(** The exponent an exponent part denotes: the digits after the [e],
    negated after a minus sign; zero when there is no exponent part. *)
Definition exponent_value (exp : text) : Z :=
  match exp with
  | _ :: g :: d =>
      if (g =? 45)%N then - Z.of_N (N.of_uint (text_uint d))
      else if (g =? 43)%N then Z.of_N (N.of_uint (text_uint d))
      else Z.of_N (N.of_uint (text_uint (g :: d)))
  | _ => 0
  end.

(** The mathematical value of a text that is a number literal from end
    to end, when it is an integer other than negative zero: the digits
    [n] of the integer and fraction parts, scaled by ten to the exponent
    less the number of fraction digits. *)
Definition decimal_value (s : text) : option Z :=
  let '(sign, s) := scan_sign s in
  '(int, s) ← scan_int s;
  '(frac, s) ← scan_frac s;
  '(exp, rest) ← scan_exp s;
  let n := Z.of_N (N.of_uint (text_uint (int ++ tail frac))) in
  let shift := exponent_value exp - Z.of_nat (length (tail frac)) in
  m ← (if 0 <=? shift then Some (n * 10 ^ shift)
       else if n mod 10 ^ (- shift) =? 0 then Some (n / 10 ^ (- shift))
       else None);
  match rest, sign with
  | _ :: _, _ => None
  | [], [] => Some m
  | [], _ => if m =? 0 then None else Some (- m)
  end.

Definition safe_integer (z : Z) : bool :=
  (- MAX_SAFE_INTEGER <=? z) && (z <=? MAX_SAFE_INTEGER).

(** The value of a number token: the safe integer it denotes, whether it
    is spelled as [Number::toString] spells it or with a fraction or an
    exponent part ([10.0], [1e1]); the literal otherwise: a number with a
    fraction, an integer beyond the safe range, or negative zero.  The
    literal is kept as written and not rounded to a binary64 value. *)
Definition number_of_literal (s : text) : value :=
  let z := integer_value s in
  if bool_decide (integer_text z = s)
     && (- MAX_SAFE_INTEGER <=? z) && (z <=? MAX_SAFE_INTEGER)
  then Number z
  else match decimal_value s with
       | Some z => if safe_integer z then Number z else NumberLiteral s
       | None => NumberLiteral s
       end.

(** *** Strings

    34 is the double quote, 92 the backslash, 47 the slash, 117 the letter
    u; 8, 9, 10, 12 and 13 are the control characters written with the
    letters b (98), t (116), n (110), f (102) and r (114). *)

(** The value of a hexadecimal digit, and the lower-case digit of a value
    below sixteen. *)
Definition hex_value (c : N) : option N :=
  (if (48 <=? c) && (c <=? 57) then Some (c - 48)
   else if (97 <=? c) && (c <=? 102) then Some (c - 87)
   else if (65 <=? c) && (c <=? 70) then Some (c - 55)
   else None)%N.

Definition hex_digit (d : N) : N :=
  (if d <? 10 then 48 + d else 87 + d)%N.

Definition hex4 (a b c d : N) : option N :=
  a ← hex_value a; b ← hex_value b; c ← hex_value c; d ← hex_value d;
  Some (((a * 16 + b) * 16 + c) * 16 + d)%N.

(** [\uXXXX], four lower-case hexadecimal digits. *)
Definition unicode_escape (c : N) : text :=
  [92; 117; hex_digit (c / 4096 mod 16); hex_digit (c / 256 mod 16);
   hex_digit (c / 16 mod 16); hex_digit (c mod 16)]%N.

(** The code unit a single-character escape denotes: after the
    backslash, a quote, a backslash, a slash or one of [b f n r t]. *)
Definition escape_value (e : N) : option N :=
  (if e =? 34 then Some 34 else if e =? 92 then Some 92
   else if e =? 47 then Some 47 else if e =? 98 then Some 8
   else if e =? 102 then Some 12 else if e =? 110 then Some 10
   else if e =? 114 then Some 13 else if e =? 116 then Some 9
   else None)%N.

(** The contents of a string token, read after its opening quote up to
    the closing one: no raw control character, a backslash starts an
    escape. *)
Fixpoint scan_string (s : text) : option (text * text) :=
  match s with
  | [] => None
  | c :: s' =>
      if (c =? 34)%N then Some ([], s')
      else if (c =? 92)%N then
        match s' with
        | [] => None
        | e :: s'' =>
            if (e =? 117)%N then
              match s'' with
              | a :: b :: c' :: d :: s''' =>
                  match hex4 a b c' d, scan_string s''' with
                  | Some u, Some (str, rest) => Some (u :: str, rest)
                  | _, _ => None
                  end
              | _ => None
              end
            else
              match escape_value e, scan_string s'' with
              | Some u, Some (str, rest) => Some (u :: str, rest)
              | _, _ => None
              end
        end
      else if (c <? 32)%N then None
      else
        match scan_string s' with
        | Some (str, rest) => Some (c :: str, rest)
        | None => None
        end
  end.

(** [QuoteJSONString]: the seven characters with a short escape, the
    other control characters and the surrogates that are not half of a pair
    as [\uXXXX], everything else as it is. *)
Definition is_high_surrogate (c : N) : bool := ((55296 <=? c) && (c <=? 56319))%N.
Definition is_low_surrogate (c : N) : bool := ((56320 <=? c) && (c <=? 57343))%N.

Definition quote_unit (c : N) : text :=
  (if c =? 8 then [92; 98] else if c =? 9 then [92; 116]
   else if c =? 10 then [92; 110] else if c =? 12 then [92; 102]
   else if c =? 13 then [92; 114] else if c =? 34 then [92; 34]
   else if c =? 92 then [92; 92]
   else if (c <? 32) || is_high_surrogate c || is_low_surrogate c
        then unicode_escape c
   else [c])%N.

Fixpoint quote_units (s : text) : text :=
  match s with
  | [] => []
  | c :: s' =>
      if is_high_surrogate c then
        match s' with
        | d :: s'' =>
            if is_low_surrogate d then c :: d :: quote_units s''
            else quote_unit c ++ quote_units s'
        | [] => quote_unit c
        end
      else quote_unit c ++ quote_units s'
  end.

Definition QuoteJSONString (s : text) : text :=
  [34%N] ++ quote_units s ++ [34%N].

(** *** From text to tokens

    123 and 125 are the braces, 91 and 93 the brackets, 58 the colon, 44
    the comma; 32, 9, 10 and 13 are the four whitespace characters. *)

Definition is_whitespace (c : N) : bool :=
  ((c =? 32) || (c =? 9) || (c =? 10) || (c =? 13))%N.

Fixpoint skip_whitespace (s : text) : text :=
  match s with
  | c :: s' => if is_whitespace c then skip_whitespace s' else s
  | [] => []
  end.

Definition true_text : text := Eval cbv in utf16 "true".
Definition false_text : text := Eval cbv in utf16 "false".
Definition null_text : text := Eval cbv in utf16 "null".

(** [s] without the prefix [p], when it starts with it. *)
Fixpoint strip (p s : text) : option text :=
  match p, s with
  | [], _ => Some s
  | a :: p, b :: s => if (a =? b)%N then strip p s else None
  | _ :: _, [] => None
  end.

(** The token a text starts with (whitespace skipped already), and the
    text after it. *)
Definition scan_token (s : text) : option (token * text) :=
  match s with
  | [] => None
  | c :: s' =>
      if (c =? 123)%N then Some (LBrace, s')
      else if (c =? 125)%N then Some (RBrace, s')
      else if (c =? 91)%N then Some (LBracket, s')
      else if (c =? 93)%N then Some (RBracket, s')
      else if (c =? 58)%N then Some (Colon, s')
      else if (c =? 44)%N then Some (Comma, s')
      else if (c =? 34)%N then
        '(str, rest) ← scan_string s'; Some (TString str, rest)
      else if (c =? 45)%N || is_digit c then
        '(literal, rest) ← scan_number s; Some (TNumber literal, rest)
      else
        match strip true_text s, strip false_text s, strip null_text s with
        | Some rest, _, _ => Some (TTrue, rest)
        | _, Some rest, _ => Some (TFalse, rest)
        | _, _, Some rest => Some (TNull, rest)
        | _, _, _ => None
        end
  end.

(** The tokens of a text, whitespace allowed around each.  Every token
    takes at least one code unit, so the length of the text bounds the
    number of rounds. *)
Fixpoint tokenize (fuel : nat) (s : text) : option (list token) :=
  match fuel with
  | O => None
  | S fuel =>
      match skip_whitespace s with
      | [] => Some []
      | s =>
          '(t, rest) ← scan_token s;
          ts ← tokenize fuel rest;
          Some (t :: ts)
      end
  end.

(** *** From tokens to values *)

(** An array index is the canonical spelling of an integer from zero to
    [2^32 - 2] (section 6.1.7). *)
Definition MAX_ARRAY_INDEX : Z := 4294967294.

Definition array_index (k : text) : option Z :=
  let z := integer_value k in
  if bool_decide (integer_text z = k) && (0 <=? z) && (z <=? MAX_ARRAY_INDEX)
  then Some z else None.

(** [OrdinaryOwnPropertyKeys], section 10.1.11.1: whether a key [k] may
    stand right before a key [k'] in the list of the own keys of an
    object.  The array indices come first, in ascending order; the other
    keys follow, in the order of their creation. *)
Definition precedes (k k' : text) : bool :=
  match array_index k, array_index k' with
  | Some i, Some j => i <? j
  | Some _, None => true
  | None, Some _ => false
  | None, None => true
  end.

Fixpoint has_key (k : text) (properties : list (text * value)) : bool :=
  match properties with
  | [] => false
  | (k', _) :: properties => bool_decide (k = k') || has_key k properties
  end.

(** A key met again keeps its place and takes the new value. *)
Fixpoint overwrite (k : text) (v : value) (properties : list (text * value))
  : list (text * value) :=
  match properties with
  | [] => []
  | (k', v') :: properties =>
      if bool_decide (k = k') then (k', v) :: properties
      else (k', v') :: overwrite k v properties
  end.

(** A new array index goes before the first key that is a greater index
    or no index. *)
Fixpoint insert_index (i : Z) (k : text) (v : value)
    (properties : list (text * value)) : list (text * value) :=
  match properties with
  | [] => [(k, v)]
  | (k', v') :: rest =>
      match array_index k' with
      | Some j =>
          if i <? j then (k, v) :: properties
          else (k', v') :: insert_index i k v rest
      | None => (k, v) :: properties
      end
  end.

(** [CreateDataProperty] on the object being built, with the place the
    key has among the own keys afterwards: a new key that is no array
    index goes last. *)
Definition define (k : text) (v : value) (properties : list (text * value))
  : list (text * value) :=
  if has_key k properties then overwrite k v properties
  else match array_index k with
       | Some i => insert_index i k v properties
       | None => properties ++ [(k, v)]
       end.

Definition object_of (members : list (text * value)) : value :=
  Object (fold_left (fun properties m => define (fst m) (snd m) properties) members []).

(** The grammar: a value is [null], [true], [false], a number, a string,
    an array (values between brackets, separated by commas) or an object
    (members between braces, separated by commas, a member being a string,
    a colon and a value). *)
Fixpoint parse_value (fuel : nat) (ts : list token) : option (value * list token) :=
  match fuel with
  | O => None
  | S fuel =>
      match ts with
      | TNull :: ts => Some (Null, ts)
      | TTrue :: ts => Some (Bool true, ts)
      | TFalse :: ts => Some (Bool false, ts)
      | TNumber literal :: ts => Some (number_of_literal literal, ts)
      | TString s :: ts => Some (Str s, ts)
      | LBracket :: RBracket :: ts => Some (Array [], ts)
      | LBracket :: ts =>
          '(elements, ts) ← parse_elements fuel ts; Some (Array elements, ts)
      | LBrace :: RBrace :: ts => Some (Object [], ts)
      | LBrace :: ts =>
          '(members, ts) ← parse_members fuel ts; Some (object_of members, ts)
      | _ => None
      end
  end
with parse_elements (fuel : nat) (ts : list token) : option (list value * list token) :=
  match fuel with
  | O => None
  | S fuel =>
      '(v, ts) ← parse_value fuel ts;
      match ts with
      | RBracket :: ts => Some ([v], ts)
      | Comma :: ts =>
          '(elements, ts) ← parse_elements fuel ts; Some (v :: elements, ts)
      | _ => None
      end
  end
with parse_members (fuel : nat) (ts : list token)
  : option (list (text * value) * list token) :=
  match fuel with
  | O => None
  | S fuel =>
      match ts with
      | TString k :: Colon :: ts =>
          '(v, ts) ← parse_value fuel ts;
          match ts with
          | RBrace :: ts => Some ([(k, v)], ts)
          | Comma :: ts =>
              '(members, ts) ← parse_members fuel ts; Some ((k, v) :: members, ts)
          | _ => None
          end
      | _ => None
      end
  end.

(** [JSON.parse(text)]: the value of the text, or [None] where the
    built-in throws a [SyntaxError]. *)
Definition parse (s : text) : option value :=
  ts ← tokenize (S (List.length s)) s;
  '(v, rest) ← parse_value (2 * List.length ts + 2) ts;
  match rest with
  | [] => Some v
  | _ :: _ => None
  end.

(** *** From values to text *)

Fixpoint tokens (v : value) : list token :=
  match v with
  | Null => [TNull]
  | Bool true => [TTrue]
  | Bool false => [TFalse]
  | Number z => [TNumber (integer_text z)]
  | NumberLiteral literal => [TNumber literal]
  | Str s => [TString s]
  | Array elements =>
      LBracket ::
      match elements with
      | [] => [RBracket]
      | v :: elements =>
          tokens v ++
          (fix more (elements : list value) : list token :=
             match elements with
             | [] => [RBracket]
             | v :: elements => Comma :: tokens v ++ more elements
             end) elements
      end
  | Object properties =>
      LBrace ::
      match properties with
      | [] => [RBrace]
      | (k, v) :: properties =>
          TString k :: Colon :: tokens v ++
          (fix more (properties : list (text * value)) : list token :=
             match properties with
             | [] => [RBrace]
             | (k, v) :: properties =>
                 Comma :: TString k :: Colon :: tokens v ++ more properties
             end) properties
      end
  end.

Definition token_text (t : token) : text :=
  match t with
  | LBrace => [123] | RBrace => [125] | LBracket => [91] | RBracket => [93]
  | Colon => [58] | Comma => [44]
  | TString s => QuoteJSONString s
  | TNumber literal => literal
  | TTrue => true_text | TFalse => false_text | TNull => null_text
  end%N.

(** [JSON.stringify(value)]: the tokens of the value with nothing between
    them.  The properties of an object are written in the order of its
    list, which is the order of [EnumerableOwnProperties] when the list is
    in own-key order, as the list of every object is.  The text is the
    one the built-in produces for the values of [plain] below. *)
Definition stringify (v : value) : text :=
  concat (map token_text (tokens v)).

End JSON.

(** ** [getJSON] and [fromJSON] *)

Module Codec.
Import JSON.
Local Open Scope list_scope.

(** [getJSON(obj)]. *)
Definition getJSON (obj : value) : text := JSON.stringify obj.

(** An object used as a prototype: what matters of it here are the
    methods it carries, by name. *)
Definition descriptor (Method : Type) : Type := list (text * Method).

(** What [fromJSON] returns: a primitive, which has no prototype slot, or
    an object or array together with the value of its [[Prototype]] slot
    ([None] for [null]). *)
Inductive bound (Method : Type) : Type :=
| Primitive (v : value)
| Instance (proto : option (descriptor Method)) (own : value).
Arguments Primitive {Method} v.
Arguments Instance {Method} proto own.

Definition is_object (v : value) : bool :=
  match v with
  | Array _ | Object _ => true
  | _ => false
  end.

(** [Object.setPrototypeOf(O, proto)], section 20.1.2.23, for an [O] that
    [JSON.parse] has just made and a [proto] that is an object or [null]:
    [null] for [O] is a [TypeError], another primitive is left as it is,
    and an object gets [proto] in its [[Prototype]] slot, which cannot fail
    on a new ordinary object. *)
Definition setPrototypeOf {Method} (O : value) (proto : option (descriptor Method))
  : outcome (bound Method) :=
  match O with
  | Null => Throw TypeError
  | Array _ | Object _ => Return (Instance proto O)
  | _ => Return (Primitive O)
  end.

(** [fromJSON(proto, json)]: the call to [JSON.parse] is not guarded, so
    its [SyntaxError] is the caller's; the result of [setPrototypeOf] is
    dropped and the object, mutated by then, is returned. *)
Definition fromJSON {Method} (proto : option (descriptor Method)) (json : text)
  : outcome (bound Method) :=
  match JSON.parse json with
  | None => Throw SyntaxError
  | Some obj =>
      match setPrototypeOf obj proto with
      | Throw e => Throw e
      | Return obj => Return obj
      end
  end.


Definition getPrototypeOf {Method} (b : bound Method) : option (option (descriptor Method)) :=
  match b with
  | Primitive _ => None
  | Instance proto _ => Some proto
  end.

Fixpoint assoc {A} (k : text) (l : list (text * A)) : option A :=
  match l with
  | [] => None
  | (k', a) :: l => if bool_decide (k = k') then Some a else assoc k l
  end.

(** The own property names of a parsed value: the keys of an object;
    the indices and [length] of an array. *)
Definition hasOwnProperty (own : value) (name : text) : bool :=
  match own with
  | Object properties =>
      match assoc name properties with
      | Some _ => true
      | None => false
      end
  | Array elements =>
      bool_decide (name = utf16 "length")
      || existsb (fun i => bool_decide (name = integer_text (Z.of_nat i)))
           (seq 0 (List.length elements))
  | _ => false
  end.

Definition get_method {Method} (b : bound Method) (name : text) : option Method :=
  match b with
  | Instance (Some proto) own =>
      if hasOwnProperty own name then None else assoc name proto
  | _ => None
  end.

End Codec.

(** ** The vocabulary of the specification, for the codec *)

Module Data.
Import JSON.
Local Open Scope list_scope.

(** The keys of an object as JavaScript lists them: each key may stand
    before the next. *)
Fixpoint own_order (keys : list text) : bool :=
  match keys with
  | [] => true
  | k :: keys' =>
      match keys' with
      | [] => true
      | k' :: _ => precedes k k' && own_order keys'
      end
  end.

(** Plain data: the values [JSON.stringify] writes in full and exactly as
    modelled.  Every number is a safe integer (no fraction, no integer
    beyond [2^53 - 1], no negative zero, no [NaN] and no infinity), and the
    keys of an object are distinct and in own-key order, as the keys of an
    object are. *)
Fixpoint plain (v : value) : bool :=
  match v with
  | Null | Bool _ | Str _ => true
  | Number z => (- MAX_SAFE_INTEGER <=? z) && (z <=? MAX_SAFE_INTEGER)
  | NumberLiteral _ => false
  | Array elements => forallb plain elements
  | Object properties =>
      bool_decide (NoDup (map fst properties))
      && own_order (map fst properties)
      && forallb (fun p => plain (snd p)) properties
  end.


(** A text is valid serialized data when [JSON.parse] accepts it. *)
Definition valid (s : text) : Prop := exists v, JSON.parse s = Some v.

(** What may follow a value in the text of a value: nothing, a comma, a
    closing bracket or a closing brace. *)
Definition closes (rest : text) : bool :=
  match rest with
  | [] => true
  | c :: _ => ((c =? 44) || (c =? 93) || (c =? 125))%N
  end.

(** The same on tokens, and the token sequences whose text is read back
    token by token: every number token spells an integer and is followed by
    nothing or by a closing token. *)
Definition closing (ts : list token) : bool :=
  match ts with
  | [] | Comma :: _ | RBracket :: _ | RBrace :: _ => true
  | _ => false
  end.

Fixpoint printable (ts : list token) : Prop :=
  match ts with
  | [] => True
  | TNumber literal :: ts =>
      (exists z, literal = integer_text z) /\ closing ts = true /\ printable ts
  | _ :: ts => printable ts
  end.

Definition text_of_tokens (ts : list token) : text :=
  concat (map token_text ts).

(** The tokens after the first element of an array, and after the first
    property of an object, up to the closing token. *)
Fixpoint more_elements (elements : list value) : list token :=
  match elements with
  | [] => [RBracket]
  | v :: elements => Comma :: tokens v ++ more_elements elements
  end.

Fixpoint more_properties (properties : list (text * value)) : list token :=
  match properties with
  | [] => [RBrace]
  | (k, v) :: properties =>
      Comma :: TString k :: Colon :: tokens v ++ more_properties properties
  end.

(** A plain value is parsed back from its tokens, whatever follows them,
    with fuel for its tokens. *)
Definition parsed_back (v : value) : Prop :=
  plain v = true ->
  forall (fuel : nat) (rest : list token),
    (List.length (tokens v) <= fuel)%nat ->
    parse_value fuel (tokens v ++ rest) = Some (v, rest).

End Data.

(** ** The examples of the documentation *)

Module Examples.
Import JSON Codec.
Local Open Scope list_scope.

(** A prototype with one method, in the manner of the [Circle.prototype]
    of the example; the method is represented by its source text. *)
Definition Circle : descriptor string :=
  [(utf16 "getCircumference", "2 * Math.PI * this.radius"%string)].

(** The text of the example of [fromJSON], a [radius] member of value
    ten between braces. *)
Definition radius_json : text :=
  utf16 "{" ++ [34%N] ++ utf16 "radius" ++ [34%N] ++ utf16 ":10}".

Definition radius_object : value := Object [(utf16 "radius", Number 10)].


(** A text whose members are not in own-key order, [b] before [1], and
    the object it denotes. *)
Definition b_1_json : text :=
  utf16 "{" ++ [34%N] ++ utf16 "b" ++ [34%N] ++ utf16 ":1,"
  ++ [34%N] ++ utf16 "1" ++ [34%N] ++ utf16 ":2.0}".

Definition b_1_object : value :=
  Object [(utf16 "1", Number 2); (utf16 "b", Number 1)].

(** The attribute of the second example of the builder, [href$=] and
    then [.png] between double quotes. *)
Definition href_png : string :=
  ("href$=" ++ String (Ascii.ascii_of_nat 34) ".png"
   ++ String (Ascii.ascii_of_nat 34) "")%string.

End Examples.

(** ** The selector builder *)

Module Selector.

(** The own properties of a [CssBuilder] instance, as [initAll] creates
    them.  [tag], [identificator] and [psElement] hold [null] ([None]) or
    the string a call stored; the three arrays hold the strings pushed so
    far, oldest first. *)
Record CssBuilder : Type := mkCssBuilder {
  tag : option string;
  classes : list string;
  identificator : option string;
  attributes : list string;
  psClasses : list string;
  psElement : option string;
  selector : string;
  order : Z
}.

(** A method body runs against the receiver [this]; it may mutate it and
    either returns or throws.  The mutations made before a [throw] stay. *)
Definition M (A : Type) : Type := St CssBuilder A.

(** Field assignments [this.f = v]. *)
Definition set_tag (v : option string) (s : CssBuilder) : CssBuilder :=
  mkCssBuilder v (classes s) (identificator s) (attributes s)
               (psClasses s) (psElement s) (selector s) (order s).
Definition set_classes (v : list string) (s : CssBuilder) : CssBuilder :=
  mkCssBuilder (tag s) v (identificator s) (attributes s)
               (psClasses s) (psElement s) (selector s) (order s).
Definition set_identificator (v : option string) (s : CssBuilder) : CssBuilder :=
  mkCssBuilder (tag s) (classes s) v (attributes s)
               (psClasses s) (psElement s) (selector s) (order s).
Definition set_attributes (v : list string) (s : CssBuilder) : CssBuilder :=
  mkCssBuilder (tag s) (classes s) (identificator s) v
               (psClasses s) (psElement s) (selector s) (order s).
Definition set_psClasses (v : list string) (s : CssBuilder) : CssBuilder :=
  mkCssBuilder (tag s) (classes s) (identificator s) (attributes s)
               v (psElement s) (selector s) (order s).
Definition set_psElement (v : option string) (s : CssBuilder) : CssBuilder :=
  mkCssBuilder (tag s) (classes s) (identificator s) (attributes s)
               (psClasses s) v (selector s) (order s).
Definition set_selector (v : string) (s : CssBuilder) : CssBuilder :=
  mkCssBuilder (tag s) (classes s) (identificator s) (attributes s)
               (psClasses s) (psElement s) v (order s).
Definition set_order (v : Z) (s : CssBuilder) : CssBuilder :=
  mkCssBuilder (tag s) (classes s) (identificator s) (attributes s)
               (psClasses s) (psElement s) (selector s) v.

(** JavaScript truthiness of the values the fields hold: [null] and the
    empty string are falsy, every other string is truthy; an array (even
    an empty one) is an object, hence truthy; a number is truthy unless it
    is zero. *)
Definition truthy (v : option string) : bool :=
  match v with
  | None => false
  | Some s => negb (String.eqb s "")
  end.
Definition truthy_array (a : list string) : bool := true.
Definition truthy_number (n : Z) : bool := negb (n =? 0).

(** [Array.prototype.join] on an array of strings, and the [length]
    property. *)
Definition join (sep : string) (a : list string) : string := String.concat sep a.
Definition length (a : list string) : Z := Z.of_nat (List.length a).

(** The two messages of the source. *)
Definition onlyOne_message : string :=
  "Element, id and pseudo-element should not occur more then one time inside the selector".
Definition order_message : string :=
  "Selector parts should be arranged in the following order: element, id, class, attribute, pseudo-class, pseudo-element".

(** The names the specification gives to the two failures. *)
Definition DuplicateSelectorPartError : exn := Error onlyOne_message.
Definition SelectorOrderError : exn := Error order_message.

(** [initAll()]: every field is assigned, so the state after the call
    does not depend on the state before it. *)
Definition initial : CssBuilder :=
  {| tag := None; classes := []; identificator := None; attributes := [];
     psClasses := []; psElement := None; selector := ""; order := 0 |}.

Definition initAll : M unit := put initial.

(** [constructor()]: the new object after [this.initAll()]. *)
Definition new_CssBuilder : CssBuilder := snd (initAll initial).

(** [onlyOneError()]. *)
Definition onlyOneError : M unit :=
  initAll ;;
  throw (Error onlyOne_message).

(** [checkOrder(order)]. *)
Definition checkOrder (order' : Z) : M unit :=
  this <- get ;;
  (if order this >? order'
   then throw (Error order_message)
   else ret tt) ;;
  modify (set_order order').

(** [updateSelector()]: [render] is the local variable [selector] of the
    method, as it is when it is assigned to [this.selector]. *)
Definition render (this : CssBuilder) : string :=
  let selector := "" in
  let selector :=
    if truthy (tag this)
    then selector ++ default "" (tag this) else selector in
  let selector :=
    if truthy_number (length (attributes this))
    then selector ++ ("[" ++ join "][" (attributes this) ++ "]") else selector in
  let selector :=
    if truthy (identificator this)
    then selector ++ ("#" ++ default "" (identificator this)) else selector in
  let selector :=
    if truthy_number (length (classes this))
    then selector ++ join "" (map (fun el => "." ++ el) (classes this)) else selector in
  let selector :=
    if truthy_number (length (psClasses this))
    then selector ++ join "" (map (fun el => ":" ++ el) (psClasses this)) else selector in
  let selector :=
    if truthy (psElement this)
    then selector ++ ("::" ++ default "" (psElement this)) else selector in
  selector.

Definition updateSelector : M unit :=
  this <- get ;;
  modify (set_selector (render this)).

(** The six fragment-adding methods.  Each returns [this]; the receiver
    being the state threaded through [M], the returned value is [tt]. *)
Definition element (value : string) : M unit :=
  this <- get ;;
  (if truthy (tag this) then onlyOneError else ret tt) ;;
  checkOrder 1 ;;
  modify (set_tag (Some value)) ;;
  updateSelector.

Definition id (value : string) : M unit :=
  this <- get ;;
  (if truthy (identificator this) then onlyOneError else ret tt) ;;
  checkOrder 2 ;;
  modify (set_identificator (Some value)) ;;
  updateSelector.

Definition class (value : string) : M unit :=
  this <- get ;;
  (if negb (truthy_array (classes this)) then modify (set_classes []) else ret tt) ;;
  checkOrder 3 ;;
  modify (fun this => set_classes (classes this ++ [value]) this) ;;
  updateSelector.

Definition attr (value : string) : M unit :=
  this <- get ;;
  (if negb (truthy_array (attributes this)) then modify (set_attributes []) else ret tt) ;;
  checkOrder 4 ;;
  modify (fun this => set_attributes (attributes this ++ [value]) this) ;;
  updateSelector.

Definition pseudoClass (value : string) : M unit :=
  this <- get ;;
  (if negb (truthy_array (psClasses this)) then modify (set_psClasses []) else ret tt) ;;
  checkOrder 5 ;;
  modify (fun this => set_psClasses (psClasses this ++ [value]) this) ;;
  updateSelector.

Definition pseudoElement (value : string) : M unit :=
  this <- get ;;
  (if truthy (psElement this) then onlyOneError else ret tt) ;;
  checkOrder 6 ;;
  modify (set_psElement (Some value)) ;;
  updateSelector.

(** [stringify()]. *)
Definition stringify : M string :=
  this <- get ;;
  let selector := selector this in
  initAll ;;
  ret selector.

(** *** Handles

    Builders are objects: a chain keeps calling methods on one object, and
    [combine] receives two objects that may be one and the same, or the
    receiver itself.  The heap maps a reference to the object it denotes.
    A reference outside the heap stands for an argument that is no
    builder, on which the method call throws a [TypeError]. *)
Definition ref : Type := positive.
Abbreviation heap := (gmap positive CssBuilder).

Definition H (A : Type) : Type := St heap A.

Definition call {A} (o : ref) (method : M A) : H A :=
  fun h =>
    match h !! o with
    | Some this =>
        let '(r, this') := method this in (r, <[o := this']> h)
    | None => (Throw TypeError, h)
    end.

(** [new CssBuilder()]. *)
Definition new : H ref :=
  fun h => let o := fresh (dom h) in (Return o, <[o := new_CssBuilder]> h).

(** [combine(selector1, combinator, selector2)] on the receiver [this]:
    the template literal evaluates [selector1.stringify()] before
    [selector2.stringify()], and the result is assigned afterwards. *)
Definition combine (this selector1 : ref) (combinator : string) (selector2 : ref) : H ref :=
  s1 <- call selector1 stringify ;;
  s2 <- call selector2 stringify ;;
  call this (modify (set_selector (s1 ++ " " ++ combinator ++ " " ++ s2))) ;;
  ret this.

(** A fragment-adding method called on a handle returns the handle. *)
Definition chain (this : ref) (method : M unit) : H ref :=
  call this method ;;
  ret this.

End Selector.

(** ** The facade [cssSelectorBuilder]

    Each of its eight functions builds a new [CssBuilder] and calls the
    method of the same name on it. *)
Module cssSelectorBuilder.
Import Selector.

Definition element (value : string) : H ref :=
  cssBuilder <- new ;; chain cssBuilder (Selector.element value).
Definition id (value : string) : H ref :=
  cssBuilder <- new ;; chain cssBuilder (Selector.id value).
Definition class (value : string) : H ref :=
  cssBuilder <- new ;; chain cssBuilder (Selector.class value).
Definition attr (value : string) : H ref :=
  cssBuilder <- new ;; chain cssBuilder (Selector.attr value).
Definition pseudoClass (value : string) : H ref :=
  cssBuilder <- new ;; chain cssBuilder (Selector.pseudoClass value).
Definition pseudoElement (value : string) : H ref :=
  cssBuilder <- new ;; chain cssBuilder (Selector.pseudoElement value).
Definition combine (selector1 : ref) (combinator : string) (selector2 : ref) : H ref :=
  cssBuilder <- new ;; Selector.combine cssBuilder selector1 combinator selector2.
Definition stringify : H string :=
  cssBuilder <- new ;; call cssBuilder Selector.stringify.

End cssSelectorBuilder.

(** ** The vocabulary of the specification

    The specification speaks of six categories with a fixed rank, of
    singleton categories that are set or not, and of a sequence of
    fragment-adding calls.  These definitions give the words a meaning in
    terms of the methods above. *)
Module Grammar.
Import Selector.

Inductive category : Type :=
| Element | Id | Class | Attribute | PseudoClass | PseudoElement.

(** The rank each method passes to [checkOrder]. *)
Definition rank (c : category) : Z :=
  match c with
  | Element => 1 | Id => 2 | Class => 3
  | Attribute => 4 | PseudoClass => 5 | PseudoElement => 6
  end.

(** The fragment-adding call of a category. *)
Definition add (c : category) (value : string) : M unit :=
  match c with
  | Element => element value
  | Id => id value
  | Class => class value
  | Attribute => attr value
  | PseudoClass => pseudoClass value
  | PseudoElement => pseudoElement value
  end.

(** The facade entry point of a category. *)
Definition entry (c : category) (value : string) : H ref :=
  match c with
  | Element => cssSelectorBuilder.element value
  | Id => cssSelectorBuilder.id value
  | Class => cssSelectorBuilder.class value
  | Attribute => cssSelectorBuilder.attr value
  | PseudoClass => cssSelectorBuilder.pseudoClass value
  | PseudoElement => cssSelectorBuilder.pseudoElement value
  end.

(** A singleton category is set when the test that guards its method
    succeeds: the stored value is truthy.  The other categories have no
    such guard. *)
Definition occupied (c : category) (this : CssBuilder) : bool :=
  match c with
  | Element => truthy (tag this)
  | Id => truthy (identificator this)
  | PseudoElement => truthy (psElement this)
  | Class | Attribute | PseudoClass => false
  end.

(** The singleton categories and the slot each of them writes. *)
Definition singleton (c : category) : bool :=
  match c with
  | Element | Id | PseudoElement => true
  | Class | Attribute | PseudoClass => false
  end.

Definition slot (c : category) (this : CssBuilder) : option string :=
  match c with
  | Element => tag this
  | Id => identificator this
  | PseudoElement => psElement this
  | Class | Attribute | PseudoClass => None
  end.

(** The fields after a fragment was stored: a singleton is overwritten,
    a list gets the value appended. *)
Definition store (c : category) (value : string) (this : CssBuilder) : CssBuilder :=
  match c with
  | Element => set_tag (Some value) this
  | Id => set_identificator (Some value) this
  | Class => set_classes (classes this ++ [value]) this
  | Attribute => set_attributes (attributes this ++ [value]) this
  | PseudoClass => set_psClasses (psClasses this ++ [value]) this
  | PseudoElement => set_psElement (Some value) this
  end.

(** The handle after an accepted call: rank recorded, fragment stored,
    cached selector recomputed. *)
Definition accepted (c : category) (value : string) (this : CssBuilder) : CssBuilder :=
  let this := store c value (set_order (rank c) this) in
  set_selector (render this) this.

(** A chain of calls on one handle; it stops at the first call that
    throws. *)
Fixpoint run (calls : list (category * string)) : M unit :=
  match calls with
  | [] => ret tt
  | (c, value) :: calls => add c value ;; run calls
  end.

(** The rendering as the specification words it: the tag if set, each
    attribute in square brackets, the id after a hash if set, each class
    after a dot, each pseudo-class after a colon, the pseudo-element after
    two colons if set. *)
Definition if_set (prefix : string) (v : option string) : string :=
  match v with
  | Some s => if truthy v then prefix ++ s else ""
  | None => ""
  end.

Fixpoint each (wrap : string -> string) (a : list string) : string :=
  match a with
  | [] => ""
  | x :: a => wrap x ++ each wrap a
  end.

Definition rendering (this : CssBuilder) : string :=
  if_set "" (tag this)
  ++ each (fun a => "[" ++ a ++ "]") (attributes this)
  ++ if_set "#" (identificator this)
  ++ each (fun c => "." ++ c) (classes this)
  ++ each (fun p => ":" ++ p) (psClasses this)
  ++ if_set "::" (psElement this).

End Grammar.

(** ** Chains of calls as data

    What a chain of fragment-adding calls passes to each category, for the
    properties of whole chains. *)
Module Chains.
Import Selector Grammar.

#[global] Instance category_eq_dec : EqDecision category.
Proof. solve_decision. Defined.

(** The ranks of the calls of a chain, in call order. *)
Definition ranks (calls : list (category * string)) : list Z :=
  map (fun p => rank (fst p)) calls.

(** The categories of the calls of a chain that are singleton categories. *)
Definition singletons (calls : list (category * string)) : list category :=
  List.filter singleton (map fst calls).

(** The values a chain passes to one category, in call order. *)
Definition arguments (c : category) (calls : list (category * string)) : list string :=
  map snd (List.filter (fun p => bool_decide (fst p = c)) calls).

(** The selector written from the arguments of a chain alone: for a
    singleton category the last value passed counts. *)
Definition written (calls : list (category * string)) : string :=
  (if_set "" (last (arguments Element calls))
   ++ each (fun a => "[" ++ a ++ "]") (arguments Attribute calls)
   ++ if_set "#" (last (arguments Id calls))
   ++ each (fun c => "." ++ c) (arguments Class calls)
   ++ each (fun p => ":" ++ p) (arguments PseudoClass calls)
   ++ if_set "::" (last (arguments PseudoElement calls)))%string.

End Chains.

(** * The claim on [Rectangle] *)

Section RectangleFacts.
Import Shapes.

(** C9.  [new Rectangle(w, h)] stores [w] and [h] in [width] and
    [height]; [getArea()] multiplies the two fields as they are when it is
    called, so after an assignment to either field it returns the product
    with the new value. *)
Theorem rectangle_area (w h : number) :
  width (new_Rectangle w h) = w
  /\ height (new_Rectangle w h) = h
  /\ getArea (new_Rectangle w h) = PrimFloat.mul w h
  /\ (forall (r : Rectangle) (w' : number),
        getArea (set_width w' r) = PrimFloat.mul w' (height r))
  /\ (forall (r : Rectangle) (h' : number),
        getArea (set_height h' r) = PrimFloat.mul (width r) h').
Proof. repeat split. Qed.

End RectangleFacts.

(** * The parser against the printer *)

Section NumberFacts.
Import JSON Data.
Local Open Scope list_scope.

Lemma text_uint_uint_text (u : Decimal.uint) : text_uint (uint_text u) = u.
Proof. induction u; cbn; congruence. Qed.

Lemma uint_text_head (u : Decimal.uint) :
  match uint_text u with
  | [] => u = Decimal.Nil
  | c :: _ => is_digit c = true
  end.
Proof. destruct u; reflexivity. Qed.

Lemma integer_value_text (z : Z) : integer_value (integer_text z) = z.
Proof.
  unfold integer_text. destruct (Z.ltb_spec z 0) as [Hneg|Hpos].
  - cbn. rewrite text_uint_uint_text, DecimalN.Unsigned.of_to. lia.
  - cbn [app]. unfold integer_value.
    pose proof (uint_text_head (N.to_uint (Z.abs_N z))) as Hhead.
    destruct (uint_text (N.to_uint (Z.abs_N z))) as [|c s] eqn:Htext.
    + assert (Z.abs_N z = 0%N) as Hzero
        by (rewrite <- (DecimalN.Unsigned.of_to (Z.abs_N z)), Hhead; reflexivity).
      lia.
    + destruct (N.eqb_spec c 45) as [->|_]; [discriminate|].
      rewrite <- Htext, text_uint_uint_text, DecimalN.Unsigned.of_to. lia.
Qed.

Lemma closes_head (rest : text) :
  closes rest = true ->
  match rest with
  | [] => True
  | c :: _ => is_digit c = false /\ (c =? 46)%N = false
              /\ (c =? 101)%N = false /\ (c =? 69)%N = false
              /\ is_whitespace c = false
  end.
Proof.
  destruct rest as [|c rest]; [easy|]. cbn. intros H.
  destruct (N.eqb_spec c 44) as [->|_]; [easy|].
  destruct (N.eqb_spec c 93) as [->|_]; [easy|].
  destruct (N.eqb_spec c 125) as [->|_]; [easy|]. discriminate.
Qed.

Lemma digits_uint_text (u : Decimal.uint) (rest : text) :
  closes rest = true ->
  digits (uint_text u ++ rest) = (uint_text u, rest).
Proof.
  intros Hrest. induction u; cbn [uint_text app digits is_digit];
    try (rewrite IHu; reflexivity).
  apply closes_head in Hrest. destruct rest as [|c rest]; [reflexivity|].
  cbn [digits]. now destruct Hrest as [-> _].
Qed.

(** The digits of a natural number start with a zero only when they are
    the single digit zero. *)
Lemma to_uint_leading_zero (n : N) (u : Decimal.uint) :
  N.to_uint n = Decimal.D0 u -> u = Decimal.Nil.
Proof.
  intros Hn.
  assert (Hnorm : Decimal.unorm (N.to_uint n) = N.to_uint n).
  { now rewrite <- DecimalN.Unsigned.to_of, DecimalN.Unsigned.of_to. }
  unfold Decimal.unorm in Hnorm.
  destruct (Decimal.nzhead (N.to_uint n)) eqn:Hhead;
    rewrite Hn in Hnorm; try discriminate.
  - now injection Hnorm as <-.
  - now apply DecimalFacts.nzhead_nonzero in Hhead.
Qed.

Lemma scan_int_digits (n : N) (rest : text) :
  closes rest = true ->
  scan_int (uint_text (N.to_uint n) ++ rest)
  = Some (uint_text (N.to_uint n), rest).
Proof.
  intros Hrest.
  destruct (N.to_uint n) as [|u|u|u|u|u|u|u|u|u|u] eqn:Hn;
    cbn [uint_text app scan_int N.eqb Pos.eqb is_digit];
    try (cbn; rewrite (digits_uint_text u rest Hrest); reflexivity).
  - exfalso. destruct n as [|p]; [discriminate|].
    now apply (DecimalPos.Unsigned.to_uint_nonnil p).
  - apply to_uint_leading_zero in Hn. now subst.
Qed.

Lemma scan_number_integer (z : Z) (rest : text) :
  closes rest = true ->
  scan_number (integer_text z ++ rest) = Some (integer_text z, rest).
Proof.
  intros Hrest.
  assert (Htail : forall sign,
             ('(int, s) ← scan_int (uint_text (N.to_uint (Z.abs_N z)) ++ rest);
              '(frac, s) ← scan_frac s;
              '(exp, s) ← scan_exp s;
              Some (sign ++ int ++ frac ++ exp, s))
             = Some (sign ++ uint_text (N.to_uint (Z.abs_N z)), rest)).
  { intros sign. rewrite (scan_int_digits _ _ Hrest). cbn.
    apply closes_head in Hrest. destruct rest as [|c rest].
    - cbn. now rewrite !app_nil_r.
    - destruct Hrest as (_ & Hpoint & He & HE & _). cbn.
      rewrite Hpoint. cbn. rewrite He, HE. cbn. now rewrite !app_nil_r. }
  unfold scan_number, integer_text.
  destruct (Z.ltb_spec z 0) as [Hneg|Hpos].
  - exact (Htail [45%N]).
  - cbn [app].
    replace (scan_sign (uint_text (N.to_uint (Z.abs_N z)) ++ rest))
      with (@nil N, uint_text (N.to_uint (Z.abs_N z)) ++ rest);
      [exact (Htail []) |].
    destruct (N.to_uint (Z.abs_N z)) eqn:Hn; try reflexivity.
    exfalso. destruct (Z.abs_N z) as [|p]; [discriminate|].
    now apply (DecimalPos.Unsigned.to_uint_nonnil p).
Qed.

Lemma number_of_integer_text (z : Z) :
  - MAX_SAFE_INTEGER <= z <= MAX_SAFE_INTEGER ->
  number_of_literal (integer_text z) = Number z.
Proof.
  intros Hsafe. unfold number_of_literal. rewrite integer_value_text.
  rewrite bool_decide_eq_true_2 by reflexivity.
  destruct (Z.leb_spec (- MAX_SAFE_INTEGER) z); [|lia].
  destruct (Z.leb_spec z MAX_SAFE_INTEGER); [reflexivity | lia].
Qed.

End NumberFacts.

Section StringFacts.
Import JSON Data.
Local Open Scope list_scope.
Local Open Scope N_scope.

Lemma hex_value_digit (d : N) : d < 16 -> hex_value (hex_digit d) = Some d.
Proof.
  intros Hd. unfold hex_digit, hex_value.
  destruct (N.ltb_spec d 10).
  - destruct (N.leb_spec 48 (48 + d)); [|lia].
    destruct (N.leb_spec (48 + d) 57); [|lia]. cbn. f_equal. lia.
  - destruct (N.leb_spec 48 (87 + d)); [|lia].
    destruct (N.leb_spec (87 + d) 57); [lia|]. cbn.
    destruct (N.leb_spec 97 (87 + d)); [|lia].
    destruct (N.leb_spec (87 + d) 102); [|lia]. cbn. f_equal. lia.
Qed.

Lemma hex4_unicode_escape (c : N) :
  c < 65536 ->
  hex4 (hex_digit (c / 4096 mod 16)) (hex_digit (c / 256 mod 16))
       (hex_digit (c / 16 mod 16)) (hex_digit (c mod 16)) = Some c.
Proof.
  intros Hc. unfold hex4.
  rewrite !hex_value_digit by (apply N.mod_lt; lia). cbn. f_equal.
  zify. Z.to_euclidean_division_equations. lia.
Qed.

Lemma scan_string_literal (c : N) (s : text) :
  (c =? 34) = false -> (c =? 92) = false -> (c <? 32) = false ->
  scan_string (c :: s)
  = match scan_string s with
    | Some (str, rest) => Some (c :: str, rest)
    | None => None
    end.
Proof. intros H1 H2 H3. cbn [scan_string]. now rewrite H1, H2, H3. Qed.

Lemma scan_string_unicode (a b c d : N) (s : text) :
  scan_string (92 :: 117 :: a :: b :: c :: d :: s)
  = match hex4 a b c d, scan_string s with
    | Some u, Some (str, rest) => Some (u :: str, rest)
    | _, _ => None
    end.
Proof. reflexivity. Qed.

Lemma scan_string_escape (e u : N) (s : text) :
  (e =? 117) = false -> escape_value e = Some u ->
  scan_string (92 :: e :: s)
  = match scan_string s with
    | Some (str, rest) => Some (u :: str, rest)
    | None => None
    end.
Proof.
  intros He Hu. cbn [scan_string].
  change (92 =? 34) with false. change (92 =? 92) with true. cbv iota.
  now rewrite He, Hu.
Qed.

(** One quoted code unit is read back as the code unit. *)
Lemma scan_quote_unit (c : N) (s str rest : text) :
  scan_string s = Some (str, rest) ->
  scan_string (quote_unit c ++ s) = Some (c :: str, rest).
Proof.
  intros Hs. unfold quote_unit.
  destruct (N.eqb_spec c 8) as [->|H8];
    [cbn [app]; now rewrite (scan_string_escape 98 8), Hs|].
  destruct (N.eqb_spec c 9) as [->|H9];
    [cbn [app]; now rewrite (scan_string_escape 116 9), Hs|].
  destruct (N.eqb_spec c 10) as [->|H10];
    [cbn [app]; now rewrite (scan_string_escape 110 10), Hs|].
  destruct (N.eqb_spec c 12) as [->|H12];
    [cbn [app]; now rewrite (scan_string_escape 102 12), Hs|].
  destruct (N.eqb_spec c 13) as [->|H13];
    [cbn [app]; now rewrite (scan_string_escape 114 13), Hs|].
  destruct (N.eqb_spec c 34) as [->|H34];
    [cbn [app]; now rewrite (scan_string_escape 34 34), Hs|].
  destruct (N.eqb_spec c 92) as [->|H92];
    [cbn [app]; now rewrite (scan_string_escape 92 92), Hs|].
  destruct ((c <? 32) || is_high_surrogate c || is_low_surrogate c) eqn:Hescape.
  - assert (c < 65536) as Hc.
    { unfold is_high_surrogate, is_low_surrogate in Hescape.
      destruct (N.ltb_spec c 32); [lia|].
      destruct (N.leb_spec c 56319); [lia|].
      destruct (N.leb_spec c 57343); [lia|].
      rewrite !andb_false_r in Hescape. discriminate. }
    unfold unicode_escape. cbn [app].
    now rewrite scan_string_unicode, (hex4_unicode_escape c Hc), Hs.
  - apply orb_false_elim in Hescape as [Hescape _].
    apply orb_false_elim in Hescape as [Hcontrol _].
    cbn [app]. rewrite scan_string_literal, Hs; try reflexivity; try assumption.
    + now apply N.eqb_neq.
    + now apply N.eqb_neq.
Qed.

Lemma surrogate_literal (c : N) :
  is_high_surrogate c || is_low_surrogate c = true ->
  (c =? 34) = false /\ (c =? 92) = false /\ (c <? 32) = false.
Proof.
  unfold is_high_surrogate, is_low_surrogate. intros H.
  assert (55296 <= c) as Hc.
  { destruct (N.leb_spec 55296 c); [assumption|].
    destruct (N.leb_spec 56320 c); [lia | discriminate]. }
  repeat split; [apply N.eqb_neq | apply N.eqb_neq | apply N.ltb_ge]; lia.
Qed.

(** The quoted form of a string, up to its closing quote, is read back as
    the string. *)
Lemma scan_string_quote_units (n : nat) :
  forall (s rest : text),
    (List.length s <= n)%nat ->
    scan_string (quote_units s ++ 34 :: rest) = Some (s, rest).
Proof.
  induction n as [|n IH]; intros s rest Hlen.
  - destruct s; [reflexivity | cbn in Hlen; lia].
  - destruct s as [|c s]; [reflexivity|].
    cbn [List.length] in Hlen.
    assert (Hone : scan_string (quote_unit c ++ quote_units s ++ 34 :: rest)
                   = Some (c :: s, rest)).
    { apply scan_quote_unit, IH. lia. }
    cbn [quote_units]. destruct (is_high_surrogate c) eqn:Hhigh.
    + destruct s as [|d s].
      * now apply scan_quote_unit.
      * destruct (is_low_surrogate d) eqn:Hlow.
        -- destruct (surrogate_literal c) as (Hc1 & Hc2 & Hc3);
             [now rewrite Hhigh|].
           destruct (surrogate_literal d) as (Hd1 & Hd2 & Hd3);
             [now rewrite Hlow, orb_true_r|].
           cbn [app].
           rewrite (scan_string_literal c), (scan_string_literal d) by assumption.
           rewrite IH; [reflexivity|]. cbn [List.length] in Hlen. lia.
        -- now rewrite <- app_assoc.
    + now rewrite <- app_assoc.
Qed.

Lemma scan_string_quoted (s rest : text) :
  scan_string (quote_units s ++ 34 :: rest) = Some (s, rest).
Proof. now apply (scan_string_quote_units (List.length s)). Qed.

End StringFacts.

Section TokenFacts.
Import JSON Data.
Local Open Scope list_scope.
Local Open Scope N_scope.

Lemma integer_text_head (z : Z) :
  exists c s, integer_text z = c :: s /\ (c =? 45) || is_digit c = true.
Proof.
  unfold integer_text. destruct (z <? 0)%Z.
  - now exists 45, (uint_text (N.to_uint (Z.abs_N z))).
  - pose proof (uint_text_head (N.to_uint (Z.abs_N z))) as Hhead.
    destruct (uint_text (N.to_uint (Z.abs_N z))) as [|c s].
    + exfalso. destruct (Z.abs_N z) as [|p]; [discriminate|].
      now apply (DecimalPos.Unsigned.to_uint_nonnil p).
    + exists c, s. split; [reflexivity|]. rewrite Hhead. apply orb_true_r.
Qed.

Lemma number_head (c : N) :
  (c =? 45) || is_digit c = true ->
  (c =? 123) = false /\ (c =? 125) = false /\ (c =? 91) = false
  /\ (c =? 93) = false /\ (c =? 58) = false /\ (c =? 44) = false
  /\ (c =? 34) = false /\ is_whitespace c = false.
Proof.
  unfold is_digit, is_whitespace. intros H.
  assert (45 <= c <= 57) as Hc.
  { destruct (N.eqb_spec c 45); [lia|].
    destruct (N.leb_spec 48 c); [|discriminate].
    destruct (N.leb_spec c 57); [lia | discriminate]. }
  repeat split; try (apply N.eqb_neq; lia).
  destruct (N.eqb_spec c 32); [lia|]. destruct (N.eqb_spec c 9); [lia|].
  destruct (N.eqb_spec c 10); [lia|]. destruct (N.eqb_spec c 13); [lia|].
  reflexivity.
Qed.

Lemma closes_text_of_tokens (ts : list token) :
  closing ts = true -> closes (text_of_tokens ts) = true.
Proof. destruct ts as [|[] ts]; try discriminate; reflexivity. Qed.

(** The text of a token starts with a code unit that is no whitespace. *)
Lemma token_text_head (t : token) (ts : list token) (rest : text) :
  printable (t :: ts) ->
  exists c s, token_text t ++ rest = c :: s /\ is_whitespace c = false.
Proof.
  destruct t; intros Hprint; try (eexists _, _; split; reflexivity).
  destruct Hprint as ((z & ->) & _ & _). cbn [token_text].
  destruct (integer_text_head z) as (c & s & -> & Hc).
  exists c, (s ++ rest). split; [reflexivity|]. now apply number_head.
Qed.

(** A token is read back from its text. *)
Lemma scan_token_text (t : token) (ts : list token) :
  printable (t :: ts) ->
  scan_token (token_text t ++ text_of_tokens ts) = Some (t, text_of_tokens ts).
Proof.
  destruct t; intros Hprint; try reflexivity.
  - cbn [token_text]. unfold QuoteJSONString.
    change (scan_token (([34] ++ quote_units s ++ [34]) ++ text_of_tokens ts))
      with ('(str, rest) ← scan_string ((quote_units s ++ [34]) ++ text_of_tokens ts);
            Some (TString str, rest)).
    rewrite <- app_assoc. cbn [app]. now rewrite scan_string_quoted.
  - destruct Hprint as ((z & ->) & Hclosing & _). cbn [token_text].
    pose proof (scan_number_integer z _ (closes_text_of_tokens ts Hclosing)) as Hscan.
    destruct (integer_text_head z) as (c & s & Htext & Hc).
    rewrite Htext in Hscan |- *. cbn [app] in Hscan |- *.
    destruct (number_head c Hc) as (H1 & H2 & H3 & H4 & H5 & H6 & H7 & _).
    unfold scan_token. rewrite H1, H2, H3, H4, H5, H6, H7, Hc, Hscan.
    reflexivity.
Qed.

(** The text of a printable token sequence is split into its tokens. *)
Lemma tokenize_text_of_tokens (ts : list token) :
  forall fuel : nat,
    printable ts -> (List.length ts < fuel)%nat ->
    tokenize fuel (text_of_tokens ts) = Some ts.
Proof.
  induction ts as [|t ts IH]; intros fuel Hprint Hfuel;
    (destruct fuel as [|fuel]; [cbn in Hfuel; lia|]).
  - reflexivity.
  - change (text_of_tokens (t :: ts)) with (token_text t ++ text_of_tokens ts).
    destruct (token_text_head t ts (text_of_tokens ts) Hprint) as (c & s & Htext & Hc).
    cbn [tokenize]. rewrite Htext. cbn [skip_whitespace]. rewrite Hc.
    rewrite <- Htext, (scan_token_text t ts Hprint). cbn.
    rewrite IH; [reflexivity | | cbn [List.length] in Hfuel; lia].
    destruct t; try exact Hprint. now destruct Hprint as (_ & _ & Hprint).
Qed.

End TokenFacts.

Section ParserFacts.
Import JSON Data.
Local Open Scope list_scope.

(** Induction on values, with the hypothesis for every element of an
    array and every property of an object. *)
Lemma value_induction (P : value -> Prop) :
  P Null ->
  (forall b, P (Bool b)) ->
  (forall z, P (Number z)) ->
  (forall literal, P (NumberLiteral literal)) ->
  (forall s, P (Str s)) ->
  (forall elements, Forall P elements -> P (Array elements)) ->
  (forall properties,
      Forall (fun p => P (snd p)) properties -> P (Object properties)) ->
  forall v, P v.
Proof.
  intros HNull HBool HNumber HLiteral HStr HArray HObject.
  fix IH 1. intros [|b|z|literal|s|elements|properties].
  - exact HNull.
  - apply HBool.
  - apply HNumber.
  - apply HLiteral.
  - apply HStr.
  - apply HArray. induction elements as [|v elements IHelements].
    + apply List.Forall_nil.
    + apply List.Forall_cons; [apply IH | exact IHelements].
  - apply HObject. induction properties as [|[k v] properties IHproperties].
    + apply List.Forall_nil.
    + apply List.Forall_cons; [apply IH | exact IHproperties].
Qed.

Lemma tokens_Array (v : value) (elements : list value) :
  tokens (Array (v :: elements)) = LBracket :: tokens v ++ more_elements elements.
Proof. reflexivity. Qed.

Lemma tokens_Object (k : text) (v : value) (properties : list (text * value)) :
  tokens (Object ((k, v) :: properties))
  = LBrace :: TString k :: Colon :: tokens v ++ more_properties properties.
Proof. reflexivity. Qed.

(** The tokens of a value start with a token that closes nothing. *)
Lemma tokens_head (v : value) :
  exists t ts, tokens v = t :: ts /\ t <> RBracket /\ t <> RBrace.
Proof.
  destruct v as [|[]|z|literal|s|elements|properties];
    (eexists _, _; split; [reflexivity | split; discriminate]).
Qed.

Lemma tokens_length (v : value) : (1 <= List.length (tokens v))%nat.
Proof. destruct (tokens_head v) as (t & ts & -> & _). cbn. lia. Qed.

Lemma more_elements_length (elements : list value) :
  (1 <= List.length (more_elements elements))%nat.
Proof. destruct elements; cbn; lia. Qed.

Lemma more_properties_length (properties : list (text * value)) :
  (1 <= List.length (more_properties properties))%nat.
Proof. destruct properties as [|[k v] properties]; cbn; lia. Qed.

Lemma parse_value_array (fuel : nat) (t : token) (ts : list token) :
  t <> RBracket ->
  parse_value (S fuel) (LBracket :: t :: ts)
  = '(elements, rest) ← parse_elements fuel (t :: ts); Some (Array elements, rest).
Proof. destruct t; congruence || reflexivity. Qed.

Lemma parse_value_object (fuel : nat) (t : token) (ts : list token) :
  t <> RBrace ->
  parse_value (S fuel) (LBrace :: t :: ts)
  = '(members, rest) ← parse_members fuel (t :: ts); Some (object_of members, rest).
Proof. destruct t; congruence || reflexivity. Qed.

(** Defining the properties of an object one after the other, with
    distinct keys given in own-key order, lists them in that order. *)
Lemma has_key_new (k : text) (properties : list (text * value)) :
  k ∉ map fst properties -> has_key k properties = false.
Proof.
  induction properties as [|[k' v'] properties IH]; intros Hnew; [reflexivity|].
  cbn [map fst] in Hnew. apply not_elem_of_cons in Hnew as [Hne Hnew].
  cbn [has_key]. rewrite bool_decide_eq_false_2 by assumption. now apply IH.
Qed.

Lemma own_order_tail (k : text) (keys : list text) :
  own_order (k :: keys) = true -> own_order keys = true.
Proof.
  destruct keys as [|k' keys]; [reflexivity|].
  intros H. change (precedes k k' && own_order (k' :: keys) = true) in H.
  now apply andb_prop in H.
Qed.

Lemma own_order_prefix (keys keys' : list text) :
  own_order (keys ++ keys') = true -> own_order keys = true.
Proof.
  induction keys as [|k keys IH]; intros H; [reflexivity|].
  destruct keys as [|k' keys]; [reflexivity|].
  change (precedes k k' && own_order ((k' :: keys) ++ keys') = true) in H.
  change (precedes k k' && own_order (k' :: keys) = true).
  apply andb_prop in H as [H1 H2]. rewrite H1. now apply IH.
Qed.

Lemma own_order_before_index (keys : list text) :
  forall (k k' : text) (i : Z),
    own_order (k :: keys ++ [k']) = true -> array_index k' = Some i ->
    exists j, array_index k = Some j /\ j < i.
Proof.
  induction keys as [|k'' keys IH]; intros k k' i H Hi.
  - change (precedes k k' && true = true) in H. apply andb_prop in H as [H _].
    unfold precedes in H. rewrite Hi in H.
    destruct (array_index k) as [j|]; [|discriminate].
    exists j. split; [reflexivity | now apply Z.ltb_lt].
  - change (precedes k k'' && own_order (k'' :: keys ++ [k']) = true) in H.
    apply andb_prop in H as [H1 H2].
    destruct (IH k'' k' i H2 Hi) as (j'' & Hj'' & Hlt).
    unfold precedes in H1. rewrite Hj'' in H1.
    destruct (array_index k) as [j|]; [|discriminate].
    exists j. split; [reflexivity|]. apply Z.ltb_lt in H1. lia.
Qed.

Lemma insert_index_last (i : Z) (k : text) (v : value)
    (properties : list (text * value)) :
  array_index k = Some i ->
  own_order (map fst properties ++ [k]) = true ->
  insert_index i k v properties = properties ++ [(k, v)].
Proof.
  intros Hi. induction properties as [|[k' v'] properties IH]; intros H; [reflexivity|].
  cbn [map fst app] in H.
  destruct (own_order_before_index _ _ _ _ H Hi) as (j & Hj & Hlt).
  cbn [insert_index]. rewrite Hj.
  destruct (Z.ltb_spec i j) as [Hij|_]; [lia|].
  cbn [app]. rewrite IH; [reflexivity|]. exact (own_order_tail _ _ H).
Qed.

Lemma define_new (k : text) (v : value) (properties : list (text * value)) :
  k ∉ map fst properties ->
  own_order (map fst properties ++ [k]) = true ->
  define k v properties = properties ++ [(k, v)].
Proof.
  intros Hnew Horder. unfold define. rewrite has_key_new by assumption.
  destruct (array_index k) as [i|] eqn:Hi; [|reflexivity].
  now apply insert_index_last.
Qed.

Lemma define_all (members properties : list (text * value)) :
  NoDup (map fst (properties ++ members)) ->
  own_order (map fst (properties ++ members)) = true ->
  fold_left (fun ps m => define (fst m) (snd m) ps) members properties
  = properties ++ members.
Proof.
  revert properties.
  induction members as [|[k v] members IH]; intros properties Hkeys Horder.
  - now rewrite app_nil_r.
  - cbn [fold_left fst snd].
    replace (properties ++ (k, v) :: members)
      with ((properties ++ [(k, v)]) ++ members) in Hkeys, Horder |- *
      by now rewrite <- app_assoc.
    rewrite define_new; [now apply IH | |].
    + rewrite !map_app in Hkeys. apply NoDup_app in Hkeys as [Hkeys _].
      apply NoDup_app in Hkeys as (_ & Hdisjoint & _).
      intros Hin. apply (Hdisjoint k Hin). cbn. left.
    + rewrite !map_app in Horder. exact (own_order_prefix _ _ Horder).
Qed.

Lemma object_of_properties (properties : list (text * value)) :
  NoDup (map fst properties) -> own_order (map fst properties) = true ->
  object_of properties = Object properties.
Proof. intros Hkeys Horder. unfold object_of. now rewrite define_all. Qed.

Lemma parse_elements_tokens (elements : list value) :
  forall (v : value) (fuel : nat) (rest : list token),
    Forall parsed_back (v :: elements) ->
    forallb plain (v :: elements) = true ->
    (List.length (tokens v ++ more_elements elements) <= fuel)%nat ->
    parse_elements fuel (tokens v ++ more_elements elements ++ rest)
    = Some (v :: elements, rest).
Proof.
  induction elements as [|v' elements IH]; intros v fuel rest Hall Hplain Hfuel;
    apply Forall_cons_1 in Hall as [Hv Hall];
    cbn [forallb] in Hplain; apply andb_prop in Hplain as [Hpv Hplain];
    rewrite length_app in Hfuel;
    pose proof (tokens_length v) as Hlen;
    (destruct fuel as [|fuel]; [lia|]); cbn [parse_elements].
  - cbn [more_elements List.length] in *.
    rewrite (Hv Hpv) by lia. reflexivity.
  - cbn [more_elements List.length] in *. rewrite length_app in Hfuel.
    rewrite (Hv Hpv) by lia. cbn.
    rewrite <- app_assoc, (IH v' fuel rest Hall Hplain); [reflexivity|].
    rewrite length_app. lia.
Qed.

Lemma parse_members_tokens (properties : list (text * value)) :
  forall (k : text) (v : value) (fuel : nat) (rest : list token),
    Forall (fun p => parsed_back (snd p)) ((k, v) :: properties) ->
    forallb (fun p => plain (snd p)) ((k, v) :: properties) = true ->
    (List.length (TString k :: Colon :: tokens v ++ more_properties properties)
     <= fuel)%nat ->
    parse_members fuel
      (TString k :: Colon :: tokens v ++ more_properties properties ++ rest)
    = Some ((k, v) :: properties, rest).
Proof.
  induction properties as [|[k' v'] properties IH];
    intros k v fuel rest Hall Hplain Hfuel;
    apply Forall_cons_1 in Hall as [Hv Hall]; cbn [snd] in Hv;
    cbn [forallb snd] in Hplain; apply andb_prop in Hplain as [Hpv Hplain];
    cbn [List.length] in Hfuel; rewrite length_app in Hfuel;
    pose proof (tokens_length v) as Hlen;
    (destruct fuel as [|fuel]; [lia|]); cbn [parse_members].
  - cbn [more_properties List.length] in *.
    rewrite (Hv Hpv) by lia. reflexivity.
  - cbn [more_properties List.length] in *. rewrite length_app in Hfuel.
    rewrite (Hv Hpv) by lia. cbn.
    rewrite <- app_assoc.
    rewrite (IH k' v' fuel rest Hall); [reflexivity | exact Hplain |].
    cbn [List.length]. rewrite length_app. lia.
Qed.

Lemma parse_value_tokens (v : value) : parsed_back v.
Proof.
  induction v as [|b|z|literal|s|elements IH|properties IH] using value_induction;
    intros Hplain fuel rest Hfuel.
  - destruct fuel; [cbn in Hfuel; lia | reflexivity].
  - destruct b; (destruct fuel; [cbn in Hfuel; lia | reflexivity]).
  - destruct fuel; [cbn in Hfuel; lia|]. cbn [tokens app parse_value].
    rewrite number_of_integer_text; [reflexivity|].
    cbn [plain] in Hplain. apply andb_prop in Hplain as [H1 H2].
    apply Z.leb_le in H1, H2. lia.
  - discriminate.
  - destruct fuel; [cbn in Hfuel; lia | reflexivity].
  - destruct elements as [|v elements].
    + destruct fuel; [cbn in Hfuel; lia | reflexivity].
    + rewrite tokens_Array in Hfuel |- *.
      destruct fuel as [|fuel]; [cbn in Hfuel; lia|].
      cbn [List.length] in Hfuel.
      destruct (tokens_head v) as (t & ts & Hhead & Ht & _).
      cbn [app]. rewrite <- app_assoc.
      assert (Helems : parse_elements fuel (tokens v ++ more_elements elements ++ rest)
                       = Some (v :: elements, rest))
        by (apply parse_elements_tokens; [exact IH | exact Hplain | lia]).
      rewrite Hhead in Helems |- *. cbn [app] in Helems |- *.
      rewrite parse_value_array by assumption.
      now rewrite Helems.
  - destruct properties as [|[k v] properties].
    + destruct fuel; [cbn in Hfuel; lia | reflexivity].
    + rewrite tokens_Object in Hfuel |- *.
      destruct fuel as [|fuel]; [cbn in Hfuel; lia|].
      cbn [plain] in Hplain. apply andb_prop in Hplain as [Hkeys Hplain].
      apply andb_prop in Hkeys as [Hkeys Horder].
      apply bool_decide_eq_true_1 in Hkeys.
      cbn [app]. rewrite <- app_assoc.
      rewrite parse_value_object by discriminate.
      rewrite (parse_members_tokens properties k v fuel rest IH Hplain).
      * cbn. now rewrite object_of_properties.
      * cbn [List.length] in Hfuel |- *. lia.
Qed.

End ParserFacts.

Section RoundTrip.
Import JSON Data Codec.
Local Open Scope list_scope.

Lemma printable_more_elements (elements : list value) (rest : list token) :
  Forall (fun v => plain v = true ->
                   forall rest, closing rest = true -> printable rest ->
                                printable (tokens v ++ rest)) elements ->
  forallb plain elements = true ->
  printable rest ->
  closing (more_elements elements ++ rest) = true
  /\ printable (more_elements elements ++ rest).
Proof.
  intros Hall Hplain Hrest.
  induction elements as [|v elements IH]; [now split|].
  apply Forall_cons_1 in Hall as [Hv Hall].
  cbn [forallb] in Hplain. apply andb_prop in Hplain as [Hpv Hplain].
  destruct (IH Hall Hplain) as [Hclosing Hprint].
  split; [reflexivity|].
  cbn [more_elements app printable]. rewrite <- app_assoc. now apply Hv.
Qed.

Lemma printable_more_properties (properties : list (text * value)) (rest : list token) :
  Forall (fun p => plain (snd p) = true ->
                   forall rest, closing rest = true -> printable rest ->
                                printable (tokens (snd p) ++ rest)) properties ->
  forallb (fun p => plain (snd p)) properties = true ->
  printable rest ->
  closing (more_properties properties ++ rest) = true
  /\ printable (more_properties properties ++ rest).
Proof.
  intros Hall Hplain Hrest.
  induction properties as [|[k v] properties IH]; [now split|].
  apply Forall_cons_1 in Hall as [Hv Hall]. cbn [snd] in Hv.
  cbn [forallb snd] in Hplain. apply andb_prop in Hplain as [Hpv Hplain].
  destruct (IH Hall Hplain) as [Hclosing Hprint].
  split; [reflexivity|].
  cbn [more_properties app printable]. rewrite <- app_assoc. now apply Hv.
Qed.

(** The tokens of a plain value are printable, before anything printable
    that starts with a closing token. *)
Lemma printable_tokens (v : value) :
  plain v = true ->
  forall rest : list token,
    closing rest = true -> printable rest -> printable (tokens v ++ rest).
Proof.
  induction v as [|b|z|literal|s|elements IH|properties IH] using value_induction;
    intros Hplain rest Hclosing Hrest; try exact Hrest.
  - now destruct b.
  - cbn. eauto.
  - discriminate.
  - destruct elements as [|v elements]; [exact Hrest|].
    rewrite tokens_Array. cbn [app printable]. rewrite <- app_assoc.
    apply Forall_cons_1 in IH as [Hv IH].
    cbn [plain forallb] in Hplain. apply andb_prop in Hplain as [Hpv Hplain].
    destruct (printable_more_elements elements rest IH Hplain Hrest).
    now apply Hv.
  - destruct properties as [|[k v] properties]; [exact Hrest|].
    rewrite tokens_Object. cbn [app printable]. rewrite <- app_assoc.
    apply Forall_cons_1 in IH as [Hv IH]. cbn [snd] in Hv.
    cbn [plain] in Hplain. apply andb_prop in Hplain as [_ Hplain].
    cbn [forallb snd] in Hplain. apply andb_prop in Hplain as [Hpv Hplain].
    destruct (printable_more_properties properties rest IH Hplain Hrest).
    now apply Hv.
Qed.

Lemma printable_length (ts : list token) :
  printable ts -> (List.length ts <= List.length (text_of_tokens ts))%nat.
Proof.
  induction ts as [|t ts IH]; intros Hprint; [reflexivity|].
  change (text_of_tokens (t :: ts)) with (token_text t ++ text_of_tokens ts).
  destruct (token_text_head t ts [] Hprint) as (c & s & Htext & _).
  rewrite app_nil_r in Htext. rewrite length_app, Htext. cbn [List.length].
  assert (printable ts) as Hts
    by (destruct t; try exact Hprint; now destruct Hprint as (_ & _ & Hprint)).
  specialize (IH Hts). lia.
Qed.

(** [JSON.parse] undoes [JSON.stringify] on plain data. *)
Lemma parse_stringify (x : value) :
  plain x = true -> JSON.parse (JSON.stringify x) = Some x.
Proof.
  intros Hplain.
  assert (Hprint : printable (tokens x)).
  { rewrite <- (app_nil_r (tokens x)). now apply printable_tokens. }
  unfold JSON.parse, JSON.stringify. fold (text_of_tokens (tokens x)).
  rewrite tokenize_text_of_tokens;
    [|exact Hprint | pose proof (printable_length _ Hprint); lia].
  cbn [mbind option_bind].
  pose proof (parse_value_tokens x Hplain
                (2 * List.length (tokens x) + 2)%nat []) as Hparse.
  rewrite app_nil_r in Hparse. rewrite Hparse by lia. reflexivity.
Qed.

End RoundTrip.

(** * The bounds on the rounds of the parser

    [tokenize] and [parse_value] count their rounds down.  The counts
    [JSON.parse] starts with are never used up: a larger count gives the
    same result, so a text is rejected by the grammar alone. *)

Section Adequacy.
Import JSON Data.
Local Open Scope list_scope.
Local Open Scope nat_scope.

Lemma digits_length (s : text) :
  List.length s = List.length (fst (digits s)) + List.length (snd (digits s)).
Proof.
  induction s as [|c s IH]; [reflexivity|]. cbn [digits].
  destruct (is_digit c); [|reflexivity].
  destruct (digits s) as [d rest]. cbn in *. lia.
Qed.

Lemma scan_string_shorter (n : nat) :
  forall (s str rest : text),
    List.length s <= n ->
    scan_string s = Some (str, rest) -> List.length rest < List.length s.
Proof.
  induction n as [|n IH]; intros s str rest Hlen Hscan;
    destruct s as [|c s]; try discriminate; cbn [List.length] in *; [lia|].
  cbn [scan_string] in Hscan.
  destruct (c =? 34)%N; [injection Hscan as _ <-; lia|].
  destruct (c =? 92)%N.
  - destruct s as [|e s]; [discriminate|]. cbn [List.length] in *.
    destruct (e =? 117)%N.
    + destruct s as [|a [|b [|c' [|d s]]]]; try discriminate.
      destruct (hex4 a b c' d); [|discriminate].
      destruct (scan_string s) as [[str' rest']|] eqn:Hs; [|discriminate].
      injection Hscan as _ <-.
      apply IH in Hs; cbn [List.length] in *; lia.
    + destruct (escape_value e); [|discriminate].
      destruct (scan_string s) as [[str' rest']|] eqn:Hs; [|discriminate].
      injection Hscan as _ <-. apply IH in Hs; lia.
  - destruct (c <? 32)%N; [discriminate|].
    destruct (scan_string s) as [[str' rest']|] eqn:Hs; [|discriminate].
    injection Hscan as _ <-. apply IH in Hs; lia.
Qed.

Lemma scan_number_shorter (s literal rest : text) :
  scan_number s = Some (literal, rest) -> List.length rest < List.length s.
Proof.
  unfold scan_number.
  assert (Hsign : List.length (snd (scan_sign s)) <= List.length s).
  { destruct s as [|c s]; [reflexivity|]. cbn. destruct (c =? 45)%N; cbn; lia. }
  destruct (scan_sign s) as [sign s1]. cbn [snd] in Hsign.
  destruct (scan_int s1) as [[int s2]|] eqn:Hint; [|discriminate].
  assert (List.length s2 < List.length s1) as Hint'.
  { destruct s1 as [|c s1]; [discriminate|]. cbn [scan_int] in Hint.
    destruct (c =? 48)%N; [injection Hint as _ <-; cbn; lia|].
    destruct (is_digit c); [|discriminate].
    pose proof (digits_length s1) as Hd. destruct (digits s1) as [d r].
    injection Hint as _ <-. cbn in *. lia. }
  cbn [mbind option_bind].
  destruct (scan_frac s2) as [[frac s3]|] eqn:Hfrac; [|discriminate].
  assert (List.length s3 <= List.length s2) as Hfrac'.
  { destruct s2 as [|c s2]; [injection Hfrac as _ <-; reflexivity|].
    cbn [scan_frac] in Hfrac. destruct (c =? 46)%N.
    - pose proof (digits_length s2) as Hd. destruct (digits s2) as [[|d0 d] r];
        [discriminate|]. injection Hfrac as _ <-. cbn in *. lia.
    - injection Hfrac as _ <-. reflexivity. }
  cbn [mbind option_bind].
  destruct (scan_exp s3) as [[exp s4]|] eqn:Hexp; [|discriminate].
  assert (List.length s4 <= List.length s3) as Hexp'.
  { destruct s3 as [|c s3]; [injection Hexp as _ <-; reflexivity|].
    cbn [scan_exp] in Hexp. destruct ((c =? 101) || (c =? 69))%N.
    - destruct s3 as [|g s3].
      + discriminate.
      + destruct ((g =? 43) || (g =? 45))%N.
        * pose proof (digits_length s3) as Hd. destruct (digits s3) as [[|d0 d] r];
            [discriminate|]. injection Hexp as _ <-. cbn in *. lia.
        * pose proof (digits_length (g :: s3)) as Hd.
          destruct (digits (g :: s3)) as [[|d0 d] r];
            [discriminate|]. injection Hexp as _ <-. cbn in *. lia.
    - injection Hexp as _ <-. reflexivity. }
  cbn [mbind option_bind]. intros [= _ <-]. lia.
Qed.

Lemma strip_length (p s rest : text) :
  strip p s = Some rest -> List.length s = List.length p + List.length rest.
Proof.
  revert s. induction p as [|a p IH]; intros s Hstrip.
  - now injection Hstrip as ->.
  - destruct s as [|b s]; [discriminate|]. cbn [strip] in Hstrip.
    destruct (a =? b)%N; [|discriminate]. apply IH in Hstrip. cbn. lia.
Qed.

Lemma scan_token_shorter (s : text) (t : token) (rest : text) :
  scan_token s = Some (t, rest) -> List.length rest < List.length s.
Proof.
  destruct s as [|c s]; [discriminate|]. unfold scan_token.
  repeat (match goal with
          | |- (if ?b then _ else _) = _ -> _ =>
              destruct b; [intros [= _ <-]; cbn; lia|]
          end).
  destruct (c =? 34)%N.
  { destruct (scan_string s) as [[str r]|] eqn:Hs; [|discriminate].
    intros [= _ <-]. apply (scan_string_shorter (List.length s)) in Hs; cbn; lia. }
  destruct ((c =? 45)%N || is_digit c).
  { destruct (scan_number (c :: s)) as [[literal r]|] eqn:Hs; [|discriminate].
    intros [= _ <-]. now apply scan_number_shorter in Hs. }
  destruct (strip true_text (c :: s)) as [r1|] eqn:H1.
  { intros [= _ <-]. apply strip_length in H1. cbn in *. lia. }
  destruct (strip false_text (c :: s)) as [r2|] eqn:H2.
  { intros [= _ <-]. apply strip_length in H2. cbn in *. lia. }
  destruct (strip null_text (c :: s)) as [r3|] eqn:H3; [|discriminate].
  intros [= _ <-]. apply strip_length in H3. cbn in *. lia.
Qed.

Lemma skip_whitespace_length (s : text) :
  List.length (skip_whitespace s) <= List.length s.
Proof.
  induction s as [|c s IH]; [reflexivity|]. cbn [skip_whitespace].
  destruct (is_whitespace c); cbn; lia.
Qed.

(** More rounds than code units change nothing for [tokenize]. *)
Lemma tokenize_adequate (fuel : nat) :
  forall (fuel' : nat) (s : text),
    List.length s < fuel -> List.length s < fuel' ->
    tokenize fuel s = tokenize fuel' s.
Proof.
  induction fuel as [|fuel IH]; intros fuel' s Hfuel Hfuel'; [lia|].
  destruct fuel' as [|fuel']; [lia|]. cbn [tokenize].
  pose proof (skip_whitespace_length s) as Hskip.
  destruct (skip_whitespace s) as [|c s']; [reflexivity|].
  destruct (scan_token (c :: s')) as [[t rest]|] eqn:Hscan; [|reflexivity].
  apply scan_token_shorter in Hscan. cbn [mbind option_bind].
  rewrite (IH fuel' rest); [reflexivity | lia | lia].
Qed.


Lemma token_cases (t t' : token) :
  match t' with RBrace | RBracket => True | _ => False end ->
  t = t' \/ t <> t'.
Proof. destruct t, t'; intros []; (now left) || (right; discriminate). Qed.

(** A value, a run of elements and a run of members take tokens. *)
Lemma parse_consumes (fuel : nat) :
  (forall ts v rest,
      parse_value fuel ts = Some (v, rest) -> List.length rest < List.length ts)
  /\ (forall ts vs rest,
        parse_elements fuel ts = Some (vs, rest) -> List.length rest < List.length ts)
  /\ (forall ts ms rest,
        parse_members fuel ts = Some (ms, rest) -> List.length rest < List.length ts).
Proof.
  induction fuel as [|fuel (IHv & IHe & IHm)]; [repeat split; discriminate|].
  split; [|split].
  - intros ts v rest H. destruct ts as [|t ts]; [discriminate|].
    destruct t; try discriminate;
      try (cbn [parse_value] in H; injection H as _ <-; cbn; lia).
    + destruct ts as [|t ts].
      * cbn in H. destruct (parse_members fuel []) as [[ms r]|] eqn:Hm;
          [apply IHm in Hm; cbn in Hm; lia | discriminate].
      * destruct (token_cases t RBrace I) as [->|Ht].
        -- cbn [parse_value] in H. injection H as _ <-. cbn. lia.
        -- rewrite parse_value_object in H by assumption.
           destruct (parse_members fuel (t :: ts)) as [[ms r]|] eqn:Hm;
             [|discriminate].
           cbn in H. injection H as _ <-. apply IHm in Hm. cbn in *. lia.
    + destruct ts as [|t ts].
      * cbn in H. destruct (parse_elements fuel []) as [[vs r]|] eqn:He;
          [apply IHe in He; cbn in He; lia | discriminate].
      * destruct (token_cases t RBracket I) as [->|Ht].
        -- cbn [parse_value] in H. injection H as _ <-. cbn. lia.
        -- rewrite parse_value_array in H by assumption.
           destruct (parse_elements fuel (t :: ts)) as [[vs r]|] eqn:He;
             [|discriminate].
           cbn in H. injection H as _ <-. apply IHe in He. cbn in *. lia.
  - intros ts vs rest H. cbn [parse_elements] in H.
    destruct (parse_value fuel ts) as [[v ts1]|] eqn:Hv; [|discriminate].
    apply IHv in Hv. cbn [mbind option_bind] in H.
    destruct ts1 as [|[] ts1]; try discriminate.
    + injection H as _ <-. cbn in Hv. lia.
    + destruct (parse_elements fuel ts1) as [[vs' r]|] eqn:He; [|discriminate].
      cbn in H. injection H as _ <-. apply IHe in He. cbn in Hv. lia.
  - intros ts ms rest H. cbn [parse_members] in H.
    destruct ts as [|[] [|[] ts]]; try discriminate.
    destruct (parse_value fuel ts) as [[v ts1]|] eqn:Hv; [|discriminate].
    apply IHv in Hv. cbn [mbind option_bind] in H.
    destruct ts1 as [|[] ts1]; try discriminate.
    + injection H as _ <-. cbn in *. lia.
    + destruct (parse_members fuel ts1) as [[ms' r]|] eqn:Hm; [|discriminate].
      cbn in H. injection H as _ <-. apply IHm in Hm. cbn in *. lia.
Qed.

(** More rounds than twice the tokens and two change nothing for
    [parse_value]. *)
Lemma parse_adequate (fuel : nat) :
  (forall fuel' ts,
      2 * List.length ts + 2 <= fuel -> 2 * List.length ts + 2 <= fuel' ->
      parse_value fuel ts = parse_value fuel' ts)
  /\ (forall fuel' ts,
        2 * List.length ts + 3 <= fuel -> 2 * List.length ts + 3 <= fuel' ->
        parse_elements fuel ts = parse_elements fuel' ts)
  /\ (forall fuel' ts,
        2 * List.length ts + 3 <= fuel -> 2 * List.length ts + 3 <= fuel' ->
        parse_members fuel ts = parse_members fuel' ts).
Proof.
  induction fuel as [|fuel (IHv & IHe & IHm)]; [repeat split; intros; lia|].
  split; [|split]; intros fuel' ts Hfuel Hfuel';
    (destruct fuel' as [|fuel']; [lia|]).
  - destruct ts as [|t ts]; [reflexivity|]. cbn [List.length] in *.
    destruct t; try reflexivity.
    + destruct ts as [|t ts].
      * cbn. now rewrite (IHm fuel' []) by (cbn; lia).
      * destruct (token_cases t RBrace I) as [->|Ht]; [reflexivity|].
        rewrite !parse_value_object by assumption.
        now rewrite (IHm fuel' (t :: ts)) by (cbn [List.length] in *; lia).
    + destruct ts as [|t ts].
      * cbn. now rewrite (IHe fuel' []) by (cbn; lia).
      * destruct (token_cases t RBracket I) as [->|Ht]; [reflexivity|].
        rewrite !parse_value_array by assumption.
        now rewrite (IHe fuel' (t :: ts)) by (cbn [List.length] in *; lia).
  - cbn [parse_elements]. rewrite (IHv fuel' ts) by lia.
    destruct (parse_value fuel' ts) as [[v ts1]|] eqn:Hv; [|reflexivity].
    apply (proj1 (parse_consumes fuel')) in Hv. cbn [mbind option_bind].
    destruct ts1 as [|[] ts1]; try reflexivity.
    now rewrite (IHe fuel' ts1) by (cbn [List.length] in *; lia).
  - cbn [parse_members].
    destruct ts as [|[] [|[] ts]]; try reflexivity.
    cbn [List.length] in *. rewrite (IHv fuel' ts) by lia.
    destruct (parse_value fuel' ts) as [[v ts1]|] eqn:Hv; [|reflexivity].
    apply (proj1 (parse_consumes fuel')) in Hv. cbn [mbind option_bind].
    destruct ts1 as [|[] ts1]; try reflexivity.
    now rewrite (IHm fuel' ts1) by (cbn [List.length] in *; lia).
Qed.

(** [JSON.parse] with any larger counts of rounds. *)
Lemma parse_any_fuel (s : text) (n m : nat) :
  List.length s < n ->
  JSON.parse s
  = (ts ← tokenize n s;
     '(v, rest) ← parse_value (m + 2 * List.length ts + 2) ts;
     match rest with [] => Some v | _ :: _ => None end).
Proof.
  intros Hn. unfold JSON.parse.
  rewrite (tokenize_adequate (S (List.length s)) n s) by lia.
  destruct (tokenize n s) as [ts|]; [|reflexivity]. cbn [mbind option_bind].
  now rewrite (proj1 (parse_adequate (2 * List.length ts + 2))
                 (m + 2 * List.length ts + 2) ts) by lia.
Qed.

End Adequacy.

(** * The claims on [getJSON] and [fromJSON] *)

Section CodecFacts.
Import JSON Data Codec Examples.
Local Open Scope list_scope.




(** The own keys of an object are listed as JavaScript lists them: the
    members of a text are read into that order, a number written with a
    fraction part that is zero is the integer, and the text of the object
    has the array index first. *)
Lemma own_key_order :
  JSON.parse b_1_json = Some b_1_object
  /\ plain b_1_object = true
  /\ getJSON b_1_object
     = utf16 "{" ++ [34%N] ++ utf16 "1" ++ [34%N] ++ utf16 ":2,"
       ++ [34%N] ++ utf16 "b" ++ [34%N] ++ utf16 ":1}"
  /\ plain (Object [(utf16 "b", Number 1); (utf16 "1", Number 2)]) = false.
Proof. repeat split. Qed.

(** C8 (as amended).  [fromJSON] fails with the [SyntaxError] of
    [JSON.parse] exactly when the text is not valid; when the text is valid
    and denotes an object or an array, the value is returned with the given
    prototype in its prototype slot, whatever its properties are, and every
    method of the prototype that no own property hides is found on it. *)
Theorem fromJSON_binds
    (Method : Type) (proto : option (descriptor Method)) (json : text) :
  (fromJSON proto json = Throw SyntaxError <-> ~ valid json)
  /\ (forall obj : value,
        JSON.parse json = Some obj ->
        is_object obj = true ->
        fromJSON proto json = Return (Instance proto obj)
        /\ getPrototypeOf (Instance proto obj) = Some proto
        /\ (forall (P : descriptor Method) (name : text) (m : Method),
              proto = Some P ->
              assoc name P = Some m ->
              hasOwnProperty obj name = false ->
              get_method (Instance proto obj) name = Some m)).
Proof.
  unfold fromJSON, valid. split.
  - destruct (JSON.parse json) as [obj|].
    + split.
      * destruct obj; discriminate.
      * intros Hinvalid. exfalso. apply Hinvalid. now exists obj.
    + split; [|reflexivity]. intros _ [obj Hobj]. discriminate.
  - intros obj -> Hobject. split; [|split].
    + destruct obj; try discriminate; reflexivity.
    + reflexivity.
    + intros P name m -> Hmethod Hown. cbn [get_method]. now rewrite Hown.
Qed.

Lemma fromJSON_binds_witness :
  JSON.parse radius_json = Some radius_object
  /\ fromJSON (Some Circle) radius_json = Return (Instance (Some Circle) radius_object)
  /\ get_method (Instance (Some Circle) radius_object) (utf16 "getCircumference")
     = Some "2 * Math.PI * this.radius"%string.
Proof.
  destruct (fromJSON_binds string (Some Circle) radius_json) as [_ Hbinds].
  destruct (Hbinds radius_object) as (Hreturn & _ & Hmethod);
    [vm_compute; reflexivity | reflexivity |].
  split; [vm_compute; reflexivity|]. split; [exact Hreturn|].
  apply (Hmethod Circle); reflexivity.
Defined.

(** C8 as stated fails on the valid text [null]: nothing is bound, the
    call fails, and not with the error of the parser.  On the valid text
    [5] the number is returned as it is, with no prototype slot to bind. *)
Lemma fromJSON_binds_counterexample :
  (valid (utf16 "null")
   /\ fromJSON (Some Circle) (utf16 "null") = Throw TypeError
   /\ TypeError <> SyntaxError)
  /\ (valid (utf16 "5")
      /\ fromJSON (Some Circle) (utf16 "5") = Return (Primitive (Number 5))
      /\ getPrototypeOf (@Primitive string (Number 5)) = None
      /\ get_method (@Primitive string (Number 5)) (utf16 "getCircumference") = None).
Proof.
  split; [split; [|split] | split; [|split; [|split]]];
    try reflexivity; try discriminate.
  - now exists Null.
  - now exists (Number 5).
Qed.

End CodecFacts.

(** * The claims on the selector builder *)

Section SelectorFacts.
Import Selector Grammar.

(** What every fragment-adding method does, by cases on its two tests. *)
Lemma add_cases (c : category) (value : string) (this : CssBuilder) :
  add c value this =
    if occupied c this then (Throw DuplicateSelectorPartError, new_CssBuilder)
    else if order this >? rank c then (Throw SelectorOrderError, this)
    else (Return tt, accepted c value this).
Proof.
  destruct c; cbn [add occupied rank];
    unfold element, id, class, attr, pseudoClass, pseudoElement,
      onlyOneError, checkOrder, updateSelector, initAll, bind, get, put,
      modify, ret, throw;
    cbn [truthy_array negb].
  all: try (destruct (truthy _); [reflexivity|]).
  all: destruct (order this >? _); reflexivity.
Qed.

Lemma messages_differ : DuplicateSelectorPartError <> SelectorOrderError.
Proof. discriminate. Qed.

Lemma append_assoc (a b c : string) : (a ++ b) ++ c = a ++ (b ++ c).
Proof.
  induction a as [|x a IH]; [reflexivity|].
  change (String x ((a ++ b) ++ c) = String x (a ++ b ++ c)). now rewrite IH.
Qed.

Lemma append_nil_r (a : string) : a ++ "" = a.
Proof.
  induction a as [|x a IH]; [reflexivity|].
  change (String x (a ++ "") = String x a). now rewrite IH.
Qed.

(** [join] against the element-wise wording: an array joined on the
    empty string is the concatenation of its elements, and a non-empty
    array joined on "][" between brackets is each element in brackets. *)
Lemma join_empty_separator (wrap : string -> string) (a : list string) :
  join "" (map wrap a) = each wrap a.
Proof.
  unfold join. induction a as [|x a IH]; [reflexivity|].
  destruct a as [|y a].
  - cbn. now rewrite append_nil_r.
  - change (wrap x ++ "" ++ String.concat "" (map wrap (y :: a))
            = wrap x ++ each wrap (y :: a)).
    now rewrite IH.
Qed.

Lemma join_brackets (x : string) (a : list string) :
  "[" ++ join "][" (x :: a) ++ "]" = each (fun e => "[" ++ e ++ "]") (x :: a).
Proof.
  unfold join. revert x. induction a as [|y a IH]; intros x.
  - cbn. now rewrite append_nil_r.
  - change ("[" ++ (x ++ "][" ++ String.concat "][" (y :: a)) ++ "]"
            = ("[" ++ x ++ "]") ++ each (fun e => "[" ++ e ++ "]") (y :: a)).
    rewrite <- IH. rewrite !append_assoc. reflexivity.
Qed.

Lemma length_truthy (a : list string) :
  truthy_number (length a) = match a with [] => false | _ => true end.
Proof. destruct a; reflexivity. Qed.

Lemma render_rendering (this : CssBuilder) : render this = rendering this.
Proof.
  unfold render, rendering. rewrite !length_truthy.
  assert (Hset : forall prefix v,
             (if truthy v then prefix ++ default "" v else "") = if_set prefix v).
  { intros prefix [v|]; reflexivity. }
  assert (Hlist : forall (wrap : string -> string) a,
             match a with [] => "" | _ => join "" (map wrap a) end = each wrap a).
  { intros wrap [|x a]; [reflexivity | apply join_empty_separator]. }
  rewrite <- (Hset "" (tag this)), <- (Hset "#" (identificator this)),
    <- (Hset "::" (psElement this)).
  rewrite <- (Hlist (fun c => "." ++ c) (classes this)),
    <- (Hlist (fun p => ":" ++ p) (psClasses this)).
  destruct (attributes this) as [|x a].
  - destruct (truthy (tag this)), (truthy (identificator this)),
      (classes this), (psClasses this), (truthy (psElement this));
      cbn [each]; rewrite ?append_assoc, ?append_nil_r; reflexivity.
  - rewrite <- join_brackets.
    destruct (truthy (tag this)), (truthy (identificator this)),
      (classes this), (psClasses this), (truthy (psElement this));
      rewrite ?append_assoc, ?append_nil_r; reflexivity.
Qed.

(** A call rejected by [checkOrder] has mutated nothing. *)
Lemma order_violation_keeps_state (c : category) (value : string) (this : CssBuilder) :
  occupied c this = false -> rank c < order this ->
  snd (add c value this) = this.
Proof.
  intros Hfree Hlt. rewrite add_cases, Hfree.
  destruct (Z.gtb_spec (order this) (rank c)); [reflexivity | lia].
Qed.

(** The cached selector is the rendering of the fields in every state a
    chain of calls can leave behind, thrown calls included. *)
Lemma add_selector_current (c : category) (value : string) (this : CssBuilder) :
  selector this = rendering this ->
  selector (snd (add c value this)) = rendering (snd (add c value this)).
Proof.
  intros Hinv. rewrite add_cases.
  destruct (occupied c this); [reflexivity|].
  destruct (order this >? rank c); [exact Hinv|].
  cbn [snd]. unfold accepted. cbn [selector]. rewrite render_rendering.
  destruct c; reflexivity.
Qed.

Lemma run_selector_current (calls : list (category * string)) (this : CssBuilder) :
  selector this = rendering this ->
  selector (snd (run calls this)) = rendering (snd (run calls this)).
Proof.
  revert this. induction calls as [|[c value] calls IH]; intros this Hinv.
  - exact Hinv.
  - cbn [run]. unfold bind.
    pose proof (add_selector_current c value this Hinv) as Hstep.
    destruct (add c value this) as [[[]|e] this']; cbn [snd] in *.
    + now apply IH.
    + exact Hstep.
Qed.

(** C1 (as amended).  A fragment-adding call whose rank is strictly less
    than the rank the handle tracks raises the order failure, provided the
    duplicate test of the method does not fire first, that is, unless the
    call is [element] or [id] on a handle whose slot already holds a
    truthy value. *)
Theorem order_violation_raises (c : category) (value : string) (this : CssBuilder) :
  rank c < order this ->
  occupied c this = false ->
  fst (add c value this) = Throw SelectorOrderError.
Proof.
  intros Hlt Hfree. rewrite add_cases, Hfree.
  destruct (Z.gtb_spec (order this) (rank c)); [reflexivity | lia].
Qed.

Lemma order_violation_raises_witness :
  rank Element < order (snd (id "x" new_CssBuilder))
  /\ fst (add Element "a" (snd (id "x" new_CssBuilder))) = Throw SelectorOrderError.
Proof.
  split; [reflexivity|].
  apply (order_violation_raises Element "a" (snd (id "x" new_CssBuilder)));
    reflexivity.
Defined.

(** C1 as stated fails twice.  After [id('x')], [element('a')] has the
    lower rank and raises the order failure, but the handle still holds
    the id and its rendering: nothing was discarded.  After
    [element('a').id('x')], [element('c')] has the lower rank too, and
    raises the duplicate failure, not the order failure. *)
Lemma order_violation_counterexample :
  (rank Element < order (snd (id "x" new_CssBuilder))
   /\ add Element "a" (snd (id "x" new_CssBuilder))
      = (Throw SelectorOrderError, snd (id "x" new_CssBuilder))
   /\ identificator (snd (id "x" new_CssBuilder)) = Some "x"
   /\ selector (snd (id "x" new_CssBuilder)) = "#x"
   /\ snd (id "x" new_CssBuilder) <> new_CssBuilder)
  /\ (rank Element < order (snd (run [(Element, "a"); (Id, "x")] new_CssBuilder))
      /\ fst (add Element "c" (snd (run [(Element, "a"); (Id, "x")] new_CssBuilder)))
         = Throw DuplicateSelectorPartError
      /\ DuplicateSelectorPartError <> SelectorOrderError).
Proof.
  repeat split; try reflexivity; discriminate.
Qed.

(** A singleton call that was accepted with a non-empty value leaves its
    category set. *)
Lemma accepted_occupies (c : category) (value : string) (this : CssBuilder) :
  singleton c = true -> value <> "" ->
  occupied c (accepted c value this) = true.
Proof.
  intros Hsingle Hvalue.
  assert (truthy (Some value) = true) as Htruthy
    by (destruct value; [contradiction | reflexivity]).
  destruct c; try discriminate; exact Htruthy.
Qed.

(** C2.  When a singleton category (element, id, pseudo-element) is
    already set on a handle, a call of that category raises the duplicate
    failure and leaves the handle in the state of a new one. *)
Theorem duplicate_singleton_discards (c : category) (value : string) (this : CssBuilder) :
  occupied c this = true ->
  add c value this = (Throw DuplicateSelectorPartError, new_CssBuilder).
Proof. intros Hocc. now rewrite add_cases, Hocc. Qed.

Lemma duplicate_singleton_discards_witness :
  occupied Element (snd (run [(Element, "a"); (Class, "b")] new_CssBuilder)) = true
  /\ add Element "div" (snd (run [(Element, "a"); (Class, "b")] new_CssBuilder))
     = (Throw DuplicateSelectorPartError, new_CssBuilder).
Proof.
  split; [reflexivity|].
  apply (duplicate_singleton_discards Element "div"); reflexivity.
Defined.

(** C3.  [updateSelector] stores the concatenation of: the tag if set,
    each attribute in square brackets, the id after a hash if set, each
    class after a dot, each pseudo-class after a colon, the pseudo-element
    after two colons if set.  The string depends on the fields only, and it
    is the cached selector after any chain of calls on a new handle,
    whatever the order of the calls. *)
Theorem selector_rendering :
  (forall this : CssBuilder,
      updateSelector this = (Return tt, set_selector (rendering this) this))
  /\ (forall calls : list (category * string),
        selector (snd (run calls new_CssBuilder))
        = rendering (snd (run calls new_CssBuilder))).
Proof.
  split.
  - intros this. unfold updateSelector, bind, get, modify.
    now rewrite render_rendering.
  - intros calls. now apply run_selector_current.
Qed.

(** C4 (as amended).  A call whose rank equals the rank tracked so far is
    accepted and stores its fragment, unless the duplicate test of its
    method fires: [element], [id] and [pseudoElement] on a handle whose
    slot already holds a truthy value raise the duplicate failure and
    leave the handle as a new one.  [class], [attr] and [pseudoClass] have
    no such test: at equal rank they are always accepted and append
    whatever value they are given.  The order failure is raised exactly
    when the duplicate test does not fire and the rank is strictly
    lower. *)
Theorem equal_rank_accepted (c : category) (value : string) (this : CssBuilder) :
  rank c = order this ->
  add c value this
  = (if occupied c this then (Throw DuplicateSelectorPartError, new_CssBuilder)
     else (Return tt, accepted c value this))
  /\ (singleton c = false -> add c value this = (Return tt, accepted c value this))
  /\ (forall this' : CssBuilder,
        fst (add c value this') = Throw SelectorOrderError
        <-> occupied c this' = false /\ rank c < order this')
  /\ classes (accepted Class value this) = (classes this ++ [value])%list
  /\ attributes (accepted Attribute value this) = (attributes this ++ [value])%list
  /\ psClasses (accepted PseudoClass value this) = (psClasses this ++ [value])%list
  /\ order (accepted c value this) = rank c.
Proof.
  intros Hrank.
  assert (Hequal : add c value this
                   = (if occupied c this
                      then (Throw DuplicateSelectorPartError, new_CssBuilder)
                      else (Return tt, accepted c value this))).
  { rewrite add_cases. destruct (occupied c this); [reflexivity|].
    destruct (Z.gtb_spec (order this) (rank c)); [lia | reflexivity]. }
  split; [exact Hequal|]. split.
  { intros Hlist. rewrite Hequal.
    replace (occupied c this) with false by (destruct c; try discriminate; reflexivity).
    reflexivity. }
  split.
  { intros this'. rewrite add_cases.
    destruct (occupied c this').
    - cbn [fst]. split; [discriminate | intros [? _]; discriminate].
    - destruct (Z.gtb_spec (order this') (rank c)); cbn [fst].
      + split; [intros _; split; [reflexivity | lia] | reflexivity].
      + split; [discriminate | intros [_ ?]; lia]. }
  repeat split; destruct c; reflexivity.
Qed.

Lemma equal_rank_accepted_witness :
  rank Class = order (snd (run [(Id, "main"); (Class, "container")] new_CssBuilder))
  /\ add Class "container" (snd (run [(Id, "main"); (Class, "container")] new_CssBuilder))
     = (Return tt,
        accepted Class "container"
          (snd (run [(Id, "main"); (Class, "container")] new_CssBuilder)))
  /\ selector (accepted Class "container"
                 (snd (run [(Id, "main"); (Class, "container")] new_CssBuilder)))
     = "#main.container.container".
Proof.
  split; [reflexivity|]. split; [|reflexivity].
  apply (equal_rank_accepted Class "container"
           (snd (run [(Id, "main"); (Class, "container")] new_CssBuilder)));
    reflexivity.
Defined.

(** C4 as stated fails on the singleton categories.  After
    [element('a')] the handle tracks the rank of [element], so that
    [element('b')] has the equal rank; it does not succeed: the duplicate
    test of the method fires, the duplicate failure is raised and the tag
    is discarded.  The same holds of [id] after [element('a').id('x')],
    and of [pseudoElement] after itself. *)
Lemma equal_rank_counterexample :
  (rank Element = order (snd (element "a" new_CssBuilder))
   /\ add Element "b" (snd (element "a" new_CssBuilder))
      = (Throw DuplicateSelectorPartError, new_CssBuilder))
  /\ (rank Id = order (snd (run [(Element, "a"); (Id, "x")] new_CssBuilder))
      /\ add Id "y" (snd (run [(Element, "a"); (Id, "x")] new_CssBuilder))
         = (Throw DuplicateSelectorPartError, new_CssBuilder))
  /\ (rank PseudoElement = order (snd (pseudoElement "after" new_CssBuilder))
      /\ add PseudoElement "before" (snd (pseudoElement "after" new_CssBuilder))
         = (Throw DuplicateSelectorPartError, new_CssBuilder)).
Proof. repeat split. Qed.

(** A method call on a handle of the heap runs the method on the object
    and writes the object back. *)
Lemma call_lookup {A} (o : ref) (method : M A) (h : heap) (this : CssBuilder) :
  h !! o = Some this ->
  call o method h = (fst (method this), <[o := snd (method this)]> h).
Proof. intros Hthis. unfold call. rewrite Hthis. now destruct (method this). Qed.

(** A facade entry point touches no object of the heap it is called in:
    it allocates a new handle and calls the method on it. *)
Lemma entry_new_handle (c : category) (value : string) (h : heap) :
  h !! fresh (dom h) = None
  /\ entry c value h
     = (match fst (add c value new_CssBuilder) with
        | Return _ => Return (fresh (dom h))
        | Throw e => Throw e
        end,
        <[fresh (dom h) := snd (add c value new_CssBuilder)]> h).
Proof.
  split.
  - apply not_elem_of_dom, is_fresh.
  - assert (Hgen : forall method : M unit,
               (cssBuilder <- new ;; chain cssBuilder method) h
               = (match fst (method new_CssBuilder) with
                  | Return _ => Return (fresh (dom h))
                  | Throw e => Throw e
                  end,
                  <[fresh (dom h) := snd (method new_CssBuilder)]> h)).
    { intros method. unfold bind at 1. unfold new, chain, bind.
      rewrite (call_lookup _ _ _ new_CssBuilder) by apply lookup_insert_eq.
      rewrite insert_insert_eq.
      destruct (method new_CssBuilder) as [[[]|e] this']; reflexivity. }
    destruct c; apply Hgen.
Qed.

(** C5.  [stringify] returns the cached selector and leaves the handle
    in the state of a new one, field by field; whatever is called next on
    the handle behaves as on a new handle. *)
Theorem stringify_resets :
  (forall this : CssBuilder,
      stringify this = (Return (selector this), new_CssBuilder))
  /\ new_CssBuilder
     = {| tag := None; classes := []; identificator := None; attributes := [];
          psClasses := []; psElement := None; selector := ""; order := 0 |}
  /\ (forall (A : Type) (next : M A) (this : CssBuilder),
        (stringify ;; next) this = next new_CssBuilder)
  /\ (forall (c : category) (value : string) (h : heap),
        h !! fresh (dom h) = None
        /\ snd (entry c value h)
           = <[fresh (dom h) := snd (add c value new_CssBuilder)]> h).
Proof.
  split; [intros this; reflexivity|].
  split; [reflexivity|].
  split; [intros A next this; reflexivity|].
  intros c value h. destruct (entry_new_handle c value h) as [Hnew Hentry].
  split; [exact Hnew | now rewrite Hentry].
Qed.

(** C6.  [combine] calls [stringify] on the left handle, then on the
    right handle, which resets both, and stores on the receiver the left
    string, a space, the combinator, a space and the right string;
    [stringify] on the receiver then returns that string.  The left string
    is the selector the left handle had cached; so is the right one, unless
    both arguments are one handle, which the first call has just reset. *)
Theorem combine_joins
    (h : heap) (this left right : ref) (combinator : string)
    (l r : CssBuilder) :
  h !! left = Some l ->
  h !! right = Some r ->
  is_Some (h !! this) ->
  exists (h' : heap) (s1 s2 : string),
    combine this left combinator right h = (Return this, h')
    /\ call left stringify h = (Return s1, <[left := new_CssBuilder]> h)
    /\ call right stringify (<[left := new_CssBuilder]> h)
       = (Return s2, <[right := new_CssBuilder]> (<[left := new_CssBuilder]> h))
    /\ s1 = selector l
    /\ s2 = (if decide (left = right) then "" else selector r)
    /\ selector <$> h' !! this = Some (s1 ++ " " ++ combinator ++ " " ++ s2)
    /\ (left <> this -> h' !! left = Some new_CssBuilder)
    /\ (right <> this -> h' !! right = Some new_CssBuilder)
    /\ call this stringify h'
       = (Return (s1 ++ " " ++ combinator ++ " " ++ s2), <[this := new_CssBuilder]> h').
Proof.
  intros Hl Hr [t Ht].
  set (h1 := <[left := new_CssBuilder]> h).
  set (h2 := <[right := new_CssBuilder]> h1).
  set (s1 := selector l).
  set (s2 := if decide (left = right) then "" else selector r).
  assert (H1 : call left stringify h = (Return s1, h1)).
  { now rewrite (call_lookup _ _ _ l Hl). }
  assert (H2 : call right stringify h1 = (Return s2, h2)).
  { unfold s2, h2, h1. destruct (decide (left = right)) as [->|Hne].
    - now rewrite (call_lookup _ _ _ new_CssBuilder) by apply lookup_insert_eq.
    - rewrite (call_lookup _ _ _ r); [reflexivity|].
      now rewrite lookup_insert_ne. }
  assert (H3 : exists t', h2 !! this = Some t').
  { unfold h2, h1.
    destruct (decide (right = this)) as [->|Hr'];
      [rewrite lookup_insert_eq; eauto | rewrite lookup_insert_ne by done].
    destruct (decide (left = this)) as [->|Hl'];
      [rewrite lookup_insert_eq; eauto | rewrite lookup_insert_ne by done].
    eauto. }
  destruct H3 as [t' Ht'].
  set (joined := s1 ++ " " ++ combinator ++ " " ++ s2).
  exists (<[this := set_selector joined t']> h2), s1, s2.
  split.
  { unfold combine, bind. rewrite H1, H2.
    now rewrite (call_lookup _ _ _ t' Ht'). }
  split; [exact H1|]. split; [exact H2|].
  split; [reflexivity|]. split; [reflexivity|].
  split; [now rewrite lookup_insert_eq|].
  split.
  { intros Hne. rewrite lookup_insert_ne by done. unfold h2, h1.
    destruct (decide (right = left)) as [->|Hrl];
      [now rewrite lookup_insert_eq|].
    rewrite lookup_insert_ne by done. now rewrite lookup_insert_eq. }
  split.
  { intros Hne. rewrite lookup_insert_ne by done. unfold h2.
    now rewrite lookup_insert_eq. }
  rewrite (call_lookup _ _ _ (set_selector joined t')) by apply lookup_insert_eq.
  reflexivity.
Qed.

(** C10.  A singleton method called with a falsy value (the empty
    string) and accepted leaves its category unset: the same method called
    next on the handle is accepted again and overwrites the slot. *)
Theorem falsy_value_leaves_unset (c : category) (empty value : string) (this : CssBuilder) :
  singleton c = true ->
  truthy (Some empty) = false ->
  fst (add c empty this) = Return tt ->
  occupied c (snd (add c empty this)) = false
  /\ add c value (snd (add c empty this))
     = (Return tt, accepted c value (snd (add c empty this)))
  /\ slot c (accepted c value (snd (add c empty this))) = Some value.
Proof.
  intros Hsingle Hfalsy Hok. rewrite add_cases in Hok |- *.
  destruct (occupied c this); [discriminate|].
  destruct (order this >? rank c); [discriminate|]. cbn [snd].
  assert (Hfree : occupied c (accepted c empty this) = false).
  { destruct c; try discriminate; exact Hfalsy. }
  split; [exact Hfree|]. split.
  - rewrite add_cases, Hfree.
    replace (order (accepted c empty this)) with (rank c) by (destruct c; reflexivity).
    destruct (Z.gtb_spec (rank c) (rank c)); [lia | reflexivity].
  - destruct c; try discriminate; reflexivity.
Qed.

Lemma falsy_value_leaves_unset_witness :
  fst (add Id "" (snd (element "div" new_CssBuilder))) = Return tt
  /\ add Id "main" (snd (add Id "" (snd (element "div" new_CssBuilder))))
     = (Return tt,
        accepted Id "main" (snd (add Id "" (snd (element "div" new_CssBuilder)))))
  /\ selector (accepted Id "main" (snd (add Id "" (snd (element "div" new_CssBuilder)))))
     = "div#main".
Proof.
  split; [reflexivity|]. split; [|reflexivity].
  apply (falsy_value_leaves_unset Id "" "main" (snd (element "div" new_CssBuilder)));
    reflexivity.
Defined.

Lemma combine_joins_witness :
  exists h' : heap,
    combine 3%positive 1%positive "+" 2%positive
      (<[1%positive := snd (run [(Element, "div"); (Id, "main")] new_CssBuilder)]>
         (<[2%positive := snd (run [(Element, "table"); (Id, "data")] new_CssBuilder)]>
            (<[3%positive := new_CssBuilder]> ∅)))
    = (Return 3%positive, h')
    /\ fst (call 3%positive stringify h') = Return "div#main + table#data".
Proof.
  destruct (combine_joins
              (<[1%positive := snd (run [(Element, "div"); (Id, "main")] new_CssBuilder)]>
                 (<[2%positive := snd (run [(Element, "table"); (Id, "data")] new_CssBuilder)]>
                    (<[3%positive := new_CssBuilder]> ∅)))
              3%positive 1%positive 2%positive "+"
              (snd (run [(Element, "div"); (Id, "main")] new_CssBuilder))
              (snd (run [(Element, "table"); (Id, "data")] new_CssBuilder)))
    as (h' & s1 & s2 & Hcombine & _ & _ & Hs1 & Hs2 & _ & _ & _ & Hstringify).
  - reflexivity.
  - reflexivity.
  - exists new_CssBuilder. reflexivity.
  - exists h'. split; [exact Hcombine|].
    rewrite Hstringify, Hs1, Hs2. reflexivity.
Defined.

(** The examples of the documentation and of the specification, run
    through the facade from an empty heap. *)
Example example_ordering :
  fst ((a <- cssSelectorBuilder.id "main" ;;
        a <- chain a (class "container") ;;
        a <- chain a (class "editable") ;;
        call a stringify) ∅)
  = Return "#main.container.editable".
Proof. vm_compute. reflexivity. Qed.

Example example_full_form :
  fst ((a <- cssSelectorBuilder.element "a" ;;
        a <- chain a (attr Examples.href_png) ;;
        a <- chain a (pseudoClass "focus") ;;
        call a stringify) ∅)
  = Return ("a[" ++ Examples.href_png ++ "]:focus").
Proof. vm_compute. reflexivity. Qed.

Example example_duplicate :
  fst ((a <- cssSelectorBuilder.element "a" ;; chain a (element "div")) ∅)
  = Throw DuplicateSelectorPartError.
Proof. vm_compute. reflexivity. Qed.

Example example_order_violation :
  fst ((a <- cssSelectorBuilder.id "x" ;; chain a (element "a")) ∅)
  = Throw SelectorOrderError.
Proof. vm_compute. reflexivity. Qed.

Example example_combinator :
  fst ((a <- cssSelectorBuilder.element "div" ;;
        a <- chain a (id "main") ;;
        b <- cssSelectorBuilder.element "table" ;;
        b <- chain b (id "data") ;;
        c <- cssSelectorBuilder.combine a "+" b ;;
        call c stringify) ∅)
  = Return "div#main + table#data".
Proof. vm_compute. reflexivity. Qed.

(** One handle given twice to [combine]: the first [stringify] resets it,
    so the second one returns the empty string. *)
Example example_combine_alias :
  fst ((a <- cssSelectorBuilder.element "div" ;;
        c <- cssSelectorBuilder.combine a "+" a ;;
        call c stringify) ∅)
  = Return "div + ".
Proof. vm_compute. reflexivity. Qed.

(** The render order against the call order: the attribute is added last
    and written first after the tag. *)
Example example_render_order :
  fst (stringify
         (snd (run [(Element, "a"); (Id, "i"); (Class, "c"); (Attribute, "x")]
                 new_CssBuilder)))
  = Return "a[x]#i.c".
Proof. vm_compute. reflexivity. Qed.

End SelectorFacts.

(** * Further properties of the selector builder *)

Section ChainFacts.
Import Selector Grammar Chains.

(** X1.  A fragment-adding call that throws has either changed nothing
    (the order failure) or left the handle as new (the duplicate failure):
    no failure leaves a handle half updated. *)
Theorem failed_call_all_or_nothing
    (c : category) (value : string) (this : CssBuilder) (e : exn) :
  fst (add c value this) = Throw e ->
  (e = SelectorOrderError /\ snd (add c value this) = this
   /\ stringify (snd (add c value this)) = (Return (selector this), new_CssBuilder))
  \/ (e = DuplicateSelectorPartError /\ snd (add c value this) = new_CssBuilder).
Proof.
  rewrite add_cases. destruct (occupied c this).
  - intros [= <-]. now right.
  - destruct (order this >? rank c); [|discriminate].
    intros [= <-]. now left.
Qed.

Lemma failed_call_all_or_nothing_witness :
  snd (add Element "a" (snd (run [(Id, "x"); (Class, "y")] new_CssBuilder)))
  = snd (run [(Id, "x"); (Class, "y")] new_CssBuilder)
  /\ fst (stringify (snd (add Element "a"
                           (snd (run [(Id, "x"); (Class, "y")] new_CssBuilder)))))
     = Return "#x.y".
Proof.
  destruct (failed_call_all_or_nothing Element "a"
              (snd (run [(Id, "x"); (Class, "y")] new_CssBuilder))
              SelectorOrderError) as [(_ & Hsame & Hstringify)|(Hdup & _)].
  - reflexivity.
  - split; [exact Hsame | now rewrite Hstringify].
  - discriminate Hdup.
Defined.

Lemma run_cons (c : category) (value : string)
    (calls : list (category * string)) (this : CssBuilder) :
  run ((c, value) :: calls) this
  = if occupied c this then (Throw DuplicateSelectorPartError, new_CssBuilder)
    else if order this >? rank c then (Throw SelectorOrderError, this)
    else run calls (accepted c value this).
Proof.
  cbn [run]. unfold bind. rewrite add_cases.
  destruct (occupied c this); [reflexivity|].
  now destruct (order this >? rank c).
Qed.

Lemma run_app (calls1 calls2 : list (category * string)) (this : CssBuilder) :
  fst (run (calls1 ++ calls2) this) = Return tt ->
  fst (run calls1 this) = Return tt
  /\ run (calls1 ++ calls2) this = run calls2 (snd (run calls1 this)).
Proof.
  revert this. induction calls1 as [|[c value] calls1 IH]; intros this Hok.
  - now split.
  - cbn [app] in *. rewrite run_cons in Hok.
    rewrite (run_cons c value calls1), (run_cons c value (calls1 ++ calls2)).
    destruct (occupied c this); [discriminate|].
    destruct (order this >? rank c); [discriminate|]. now apply IH.
Qed.

Lemma order_accepted (c : category) (value : string) (this : CssBuilder) :
  order (accepted c value this) = rank c.
Proof. destruct c; reflexivity. Qed.

Lemma last_default (l : list Z) (a d : Z) : List.last (a :: l) d = List.last l a.
Proof.
  revert a d. induction l as [|b l IH]; intros a d; [reflexivity|].
  change (List.last (b :: l) d = List.last (b :: l) a). now rewrite !IH.
Qed.

(** X2.  When every call of a chain is accepted, the ranks of the calls
    never decrease along the chain, starting from the rank the handle
    tracked, and the handle ends up tracking the rank of the last call. *)
Theorem accepted_chain_sorted
    (calls : list (category * string)) (this : CssBuilder) :
  fst (run calls this) = Return tt ->
  Sorted Z.le (order this :: ranks calls)
  /\ order (snd (run calls this)) = List.last (ranks calls) (order this).
Proof.
  revert this. induction calls as [|[c value] calls IH]; intros this Hok.
  - split; [repeat constructor | reflexivity].
  - rewrite run_cons in Hok |- *.
    destruct (occupied c this); [discriminate|].
    destruct (Z.gtb_spec (order this) (rank c)) as [|Hle]; [discriminate|].
    destruct (IH _ Hok) as [Hsorted Hlast]. rewrite order_accepted in *.
    split.
    + constructor; [exact Hsorted | now constructor].
    + rewrite Hlast. cbn [ranks map fst]. now rewrite last_default.
Qed.

Lemma accepted_chain_sorted_witness :
  Sorted Z.le (0 :: ranks [(Element, "a"); (Class, "b"); (Class, "c");
                           (PseudoElement, "d")])
  /\ order (snd (run [(Element, "a"); (Class, "b"); (Class, "c");
                      (PseudoElement, "d")] new_CssBuilder)) = 6.
Proof.
  apply (accepted_chain_sorted
           [(Element, "a"); (Class, "b"); (Class, "c"); (PseudoElement, "d")]
           new_CssBuilder).
  reflexivity.
Defined.

Lemma occupied_accepted_other (c c' : category) (value : string) (this : CssBuilder) :
  c <> c' -> occupied c (accepted c' value this) = occupied c this.
Proof. destruct c, c'; intros Hne; try contradiction; reflexivity. Qed.

(** A category that is set stays set along an accepted chain, which
    therefore has no call of that category. *)
Lemma occupied_kept (c : category) (calls : list (category * string)) :
  forall this : CssBuilder,
    occupied c this = true ->
    fst (run calls this) = Return tt ->
    occupied c (snd (run calls this)) = true /\ ~ In c (map fst calls).
Proof.
  induction calls as [|[c' value] calls IH]; intros this Hocc Hok.
  - split; [exact Hocc | intros []].
  - rewrite run_cons in Hok |- *.
    destruct (occupied c' this) eqn:Hfree; [discriminate|].
    destruct (order this >? rank c'); [discriminate|].
    assert (c <> c') as Hne by (intros ->; congruence).
    destruct (IH (accepted c' value this)) as [Hkept Hnone];
      [now rewrite occupied_accepted_other | exact Hok |].
    split; [exact Hkept|]. intros [Heq|Hin]; [now apply Hne | now apply Hnone].
Qed.

(** X3.  A chain in which a singleton category is called with a
    non-empty value and called again later is not accepted, wherever the two
    calls stand in the chain and whatever handle it starts on: a non-empty
    tag, id or pseudo-element is never overwritten. *)
Theorem repeated_singleton_rejected
    (before between after : list (category * string))
    (c : category) (first second : string) (this : CssBuilder) :
  singleton c = true ->
  first <> "" ->
  fst (run (before ++ (c, first) :: between ++ (c, second) :: after)%list this)
  <> Return tt.
Proof.
  intros Hsingle Hvalue Hok.
  destruct (run_app _ _ _ Hok) as [_ Hrest]. rewrite Hrest in Hok.
  rewrite run_cons in Hok.
  destruct (occupied c (snd (run before this))); [discriminate|].
  destruct (order (snd (run before this)) >? rank c); [discriminate|].
  destruct (run_app _ _ _ Hok) as [Hbetween Hlast]. rewrite Hlast in Hok.
  destruct (occupied_kept c between _ (accepted_occupies c first _ Hsingle Hvalue)
              Hbetween) as [Hkept _].
  rewrite run_cons, Hkept in Hok. discriminate.
Qed.

Lemma repeated_singleton_rejected_witness :
  fst (run [(Element, "div"); (Id, "main"); (Class, "a"); (Id, "other")]
         new_CssBuilder) <> Return tt.
Proof.
  apply (repeated_singleton_rejected
           [(Element, "div")] [(Class, "a")] [] Id "main" "other" new_CssBuilder);
    [reflexivity | discriminate].
Defined.

Lemma singletons_cons (c : category) (value : string)
    (calls : list (category * string)) :
  singletons ((c, value) :: calls)
  = if singleton c then c :: singletons calls else singletons calls.
Proof. reflexivity. Qed.

Lemma grammatical_chain_accepted (calls : list (category * string)) :
  forall this : CssBuilder,
    Sorted Z.le (order this :: ranks calls) ->
    NoDup (singletons calls) ->
    (forall c, In c (singletons calls) -> occupied c this = false) ->
    fst (run calls this) = Return tt.
Proof.
  induction calls as [|[c value] calls IH]; intros this Hsorted Hnodup Hfree;
    [reflexivity|].
  rewrite run_cons. rewrite singletons_cons in Hnodup, Hfree.
  cbn [ranks map fst] in Hsorted. fold (ranks calls) in Hsorted.
  apply Sorted_inv in Hsorted as [Hsorted Hhead].
  apply HdRel_inv in Hhead.
  assert (occupied c this = false) as Hc.
  { destruct (singleton c) eqn:Hsingle; [apply Hfree; now left|].
    destruct c; try discriminate; reflexivity. }
  rewrite Hc. destruct (Z.gtb_spec (order this) (rank c)) as [|_]; [lia|].
  apply IH.
  - now rewrite order_accepted.
  - destruct (singleton c); [now apply NoDup_cons in Hnodup | exact Hnodup].
  - intros c' Hin.
    assert (c' <> c) as Hne.
    { intros ->. destruct (singleton c) eqn:Hsingle.
      - apply NoDup_cons in Hnodup as [Hnotin _].
        now apply Hnotin, list_elem_of_In.
      - unfold singletons in Hin. apply filter_In in Hin as [_ Hin]. congruence. }
    rewrite occupied_accepted_other by assumption.
    apply Hfree. destruct (singleton c); [now right | exact Hin].
Qed.

(** X4.  On a new handle, a chain whose ranks never decrease and in which
    element, id and pseudoElement are each called at most once is accepted
    call after call. *)
Theorem grammatical_chain_accepted_new (calls : list (category * string)) :
  Sorted Z.le (ranks calls) ->
  NoDup (singletons calls) ->
  fst (run calls new_CssBuilder) = Return tt.
Proof.
  intros Hsorted Hnodup. apply grammatical_chain_accepted.
  - constructor; [exact Hsorted|].
    destruct calls as [|[c value] calls]; constructor.
    change (0 <= rank c). destruct c; cbn; lia.
  - exact Hnodup.
  - intros c _. now destruct c.
Qed.

Lemma grammatical_chain_accepted_new_witness :
  fst (run [(Element, "div"); (Id, "main"); (Class, "a"); (Class, "a");
            (Attribute, "x"); (PseudoClass, "hover"); (PseudoElement, "after")]
         new_CssBuilder) = Return tt.
Proof.
  apply grammatical_chain_accepted_new.
  - repeat constructor; cbn; lia.
  - apply (bool_decide_unpack _). vm_compute. exact I.
Defined.

Lemma arguments_same (c : category) (value : string)
    (calls : list (category * string)) :
  arguments c ((c, value) :: calls) = value :: arguments c calls.
Proof.
  unfold arguments. cbn [List.filter fst].
  now rewrite bool_decide_eq_true_2.
Qed.

Lemma arguments_other (c c' : category) (value : string)
    (calls : list (category * string)) :
  c <> c' -> arguments c' ((c, value) :: calls) = arguments c' calls.
Proof.
  intros Hne. unfold arguments. cbn [List.filter fst].
  now rewrite bool_decide_eq_false_2.
Qed.

(** What an accepted chain leaves in the fields: each list gets the
    values passed to its category, in call order; each slot holds the last
    value passed to its category, or what it held. *)
Lemma run_fields (calls : list (category * string)) :
  forall this : CssBuilder,
    fst (run calls this) = Return tt ->
    classes (snd (run calls this)) = (classes this ++ arguments Class calls)%list
    /\ attributes (snd (run calls this))
       = (attributes this ++ arguments Attribute calls)%list
    /\ psClasses (snd (run calls this))
       = (psClasses this ++ arguments PseudoClass calls)%list
    /\ tag (snd (run calls this))
       = from_option Some (tag this) (last (arguments Element calls))
    /\ identificator (snd (run calls this))
       = from_option Some (identificator this) (last (arguments Id calls))
    /\ psElement (snd (run calls this))
       = from_option Some (psElement this) (last (arguments PseudoElement calls)).
Proof.
  induction calls as [|[c value] calls IH]; intros this Hok.
  - cbn. now rewrite !app_nil_r.
  - rewrite run_cons in Hok |- *.
    destruct (occupied c this); [discriminate|].
    destruct (order this >? rank c); [discriminate|].
    destruct (IH _ Hok) as (H1 & H2 & H3 & H4 & H5 & H6).
    rewrite H1, H2, H3, H4, H5, H6.
    destruct c; cbn [accepted store rank set_order set_selector set_tag
                       set_identificator set_classes set_attributes
                       set_psClasses set_psElement tag classes identificator
                       attributes psClasses psElement];
      rewrite ?arguments_same, ?arguments_other by discriminate;
      rewrite <- ?app_assoc; cbn [app];
      rewrite ?last_cons; repeat split;
      try reflexivity;
      match goal with |- context [last ?l] => destruct (last l) end;
      reflexivity.
Qed.

(** X5.  After a chain of accepted calls on a new handle, [stringify]
    returns the selector written from the arguments alone: the tag, the
    attributes in brackets, the id, the classes, the pseudo-classes and the
    pseudo-element, each list in call order, whatever the order in which
    attributes and classes were interleaved with the rest. *)
Theorem stringify_written (calls : list (category * string)) :
  fst (run calls new_CssBuilder) = Return tt ->
  stringify (snd (run calls new_CssBuilder)) = (Return (written calls), new_CssBuilder).
Proof.
  intros Hok.
  pose proof (run_selector_current calls new_CssBuilder eq_refl) as Hselector.
  destruct (run_fields calls new_CssBuilder Hok) as (H1 & H2 & H3 & H4 & H5 & H6).
  change (stringify (snd (run calls new_CssBuilder)))
    with (Return (selector (snd (run calls new_CssBuilder))), new_CssBuilder).
  rewrite Hselector. unfold rendering, written.
  rewrite H1, H2, H3, H4, H5, H6. cbn [new_CssBuilder initAll put snd initial
    classes attributes psClasses tag identificator psElement app].
  now destruct (last (arguments Element calls)), (last (arguments Id calls)),
    (last (arguments PseudoElement calls)).
Qed.

Lemma stringify_written_witness :
  fst (stringify (snd (run [(Element, "a"); (Id, "i"); (Class, "c"); (Class, "d");
                            (Attribute, "x"); (PseudoClass, "p")] new_CssBuilder)))
  = Return "a[x]#i.c.d:p".
Proof.
  rewrite (stringify_written
             [(Element, "a"); (Id, "i"); (Class, "c"); (Class, "d");
              (Attribute, "x"); (PseudoClass, "p")]);
    reflexivity.
Defined.






End ChainFacts.

Section HandleFacts.
Import Selector Grammar Chains.

Lemma stringify_eq (this : CssBuilder) :
  stringify this = (Return (selector this), new_CssBuilder).
Proof. reflexivity. Qed.

(** The heap after [combine] on a receiver that is neither argument. *)
Lemma combine_heap
    (h : heap) (this left right : ref) (combinator : string)
    (l r t : CssBuilder) :
  h !! left = Some l -> h !! right = Some r -> h !! this = Some t ->
  this <> left -> this <> right ->
  combine this left combinator right h
  = (Return this,
     <[this := set_selector
                 (selector l ++ " " ++ combinator ++ " "
                  ++ (if decide (left = right) then "" else selector r)) t]>
       (<[right := new_CssBuilder]> (<[left := new_CssBuilder]> h))).
Proof.
  intros Hl Hr Ht Hleft Hright. unfold combine, bind.
  rewrite (call_lookup _ _ _ l Hl), stringify_eq. cbn [fst snd].
  destruct (decide (left = right)) as [<-|Hne].
  - rewrite (call_lookup _ _ _ new_CssBuilder) by apply lookup_insert_eq.
    rewrite stringify_eq. cbn [fst snd].
    rewrite (call_lookup _ _ _ t) by now rewrite !lookup_insert_ne.
    reflexivity.
  - rewrite (call_lookup _ _ _ r) by now rewrite lookup_insert_ne.
    rewrite stringify_eq. cbn [fst snd].
    rewrite (call_lookup _ _ _ t) by now rewrite !lookup_insert_ne.
    reflexivity.
Qed.

(** [cssSelectorBuilder.combine] on two handles of the heap. *)
Lemma facade_combine
    (h : heap) (left right : ref) (combinator : string) (l r : CssBuilder) :
  h !! left = Some l -> h !! right = Some r ->
  cssSelectorBuilder.combine left combinator right h
  = (Return (fresh (dom h)),
     <[fresh (dom h) :=
         set_selector
           (selector l ++ " " ++ combinator ++ " "
            ++ (if decide (left = right) then "" else selector r))
           new_CssBuilder]>
       (<[right := new_CssBuilder]>
          (<[left := new_CssBuilder]> (<[fresh (dom h) := new_CssBuilder]> h)))).
Proof.
  intros Hl Hr.
  assert (h !! fresh (dom h) = None) as Hnew by apply not_elem_of_dom, is_fresh.
  unfold ref in *.
  assert (fresh (dom h) <> left) as Hleft by congruence.
  assert (fresh (dom h) <> right) as Hright by congruence.
  unfold cssSelectorBuilder.combine. unfold bind at 1. unfold new.
  apply combine_heap; try assumption.
  - now rewrite lookup_insert_ne.
  - now rewrite lookup_insert_ne.
  - apply lookup_insert_eq.
Qed.

(** X7.  A combined selector cannot be extended by chaining: the handle
    [cssSelectorBuilder.combine] returns accepts any fragment-adding call,
    and that call replaces the joined string by the rendering of the one
    fragment. *)
Theorem chain_after_combine_drops_joined
    (h : heap) (left right : ref) (combinator : string) (l r : CssBuilder)
    (c : category) (value : string) :
  h !! left = Some l ->
  h !! right = Some r ->
  fst ((o <- cssSelectorBuilder.combine left combinator right ;;
        o <- chain o (add c value) ;;
        call o stringify) h)
  = Return (written [(c, value)]).
Proof.
  intros Hl Hr. unfold bind at 1. rewrite (facade_combine h left right _ l r Hl Hr).
  unfold bind at 1. unfold chain. unfold bind at 1.
  rewrite (call_lookup _ _ _ _ (lookup_insert_eq _ _ _)).
  rewrite add_cases.
  replace (occupied c (set_selector _ new_CssBuilder)) with false
    by (destruct c; reflexivity).
  replace (order (set_selector _ new_CssBuilder) >? rank c) with false
    by (destruct c; reflexivity).
  cbn [fst snd ret]. rewrite insert_insert_eq.
  rewrite (call_lookup _ _ _ _ (lookup_insert_eq _ _ _)).
  cbn [fst stringify]. unfold accepted. cbn [selector set_selector].
  rewrite render_rendering. destruct c; reflexivity.
Qed.

Lemma chain_after_combine_drops_joined_witness :
  fst ((o <- cssSelectorBuilder.combine 1%positive "+" 2%positive ;;
        o <- chain o (add Class "x") ;;
        call o stringify)
         (<[1%positive := snd (run [(Element, "div")] new_CssBuilder)]>
            (<[2%positive := snd (run [(Element, "p")] new_CssBuilder)]> ∅)))
  = Return ".x".
Proof.
  apply (chain_after_combine_drops_joined _ 1%positive 2%positive "+"
           (snd (run [(Element, "div")] new_CssBuilder))
           (snd (run [(Element, "p")] new_CssBuilder)) Class "x");
    reflexivity.
Defined.

(** X8.  Combinations nest: combining a handle with the result of a
    combination of two others, all three distinct, renders the three
    selectors in order with the two combinators between them. *)
Theorem nested_combine
    (h : heap) (a b c : ref) (k1 k2 : string) (sa sb sc : CssBuilder) :
  h !! a = Some sa -> h !! b = Some sb -> h !! c = Some sc ->
  a <> b -> a <> c -> b <> c ->
  fst ((inner <- cssSelectorBuilder.combine b k2 c ;;
        outer <- cssSelectorBuilder.combine a k1 inner ;;
        call outer stringify) h)
  = Return (selector sa ++ " " ++ k1 ++ " "
            ++ (selector sb ++ " " ++ k2 ++ " " ++ selector sc)).
Proof.
  intros Ha Hb Hc Hab Hac Hbc.
  assert (h !! fresh (dom h) = None) as Hnew by apply not_elem_of_dom, is_fresh.
  unfold ref in *.
  assert (fresh (dom h) <> a) as Hna by congruence.
  assert (fresh (dom h) <> b) as Hnb by congruence.
  assert (fresh (dom h) <> c) as Hnc by congruence.
  pose proof (facade_combine h b c k2 sb sc Hb Hc) as Hfirst.
  unfold bind at 1. unfold ref in Hfirst |- *. rewrite Hfirst. cbv beta iota.
  destruct (decide (b = c)) as [|_]; [contradiction|].
  set (joined := selector sb ++ " " ++ k2 ++ " " ++ selector sc).
  set (h1 := <[fresh (dom h) := set_selector joined new_CssBuilder]>
               (<[c := new_CssBuilder]>
                  (<[b := new_CssBuilder]>
                     (<[fresh (dom h) := new_CssBuilder]> h)))).
  assert (h1 !! a = Some sa) as Ha1.
  { unfold h1. rewrite !lookup_insert_ne by congruence. exact Ha. }
  assert (h1 !! fresh (dom h) = Some (set_selector joined new_CssBuilder)) as Hinner
    by apply lookup_insert_eq.
  pose proof (facade_combine h1 a (fresh (dom h)) k1 _ _ Ha1 Hinner) as Hsecond.
  unfold bind at 1. unfold ref in Hsecond |- *. rewrite Hsecond. cbv beta iota.
  destruct (decide (a = fresh (dom h))) as [|_]; [congruence|].
  rewrite (call_lookup _ _ _ _ (lookup_insert_eq _ _ _)). reflexivity.
Qed.

Lemma nested_combine_witness :
  fst ((inner <- cssSelectorBuilder.combine 2%positive "~" 3%positive ;;
        outer <- cssSelectorBuilder.combine 1%positive "+" inner ;;
        call outer stringify)
         (<[1%positive := snd (run [(Element, "div"); (Id, "main")] new_CssBuilder)]>
            (<[2%positive := snd (run [(Element, "table"); (Id, "data")] new_CssBuilder)]>
               (<[3%positive := snd (run [(Element, "tr")] new_CssBuilder)]> ∅))))
  = Return "div#main + table#data ~ tr".
Proof.
  apply (nested_combine _ 1%positive 2%positive 3%positive "+" "~"
           (snd (run [(Element, "div"); (Id, "main")] new_CssBuilder))
           (snd (run [(Element, "table"); (Id, "data")] new_CssBuilder))
           (snd (run [(Element, "tr")] new_CssBuilder)));
    reflexivity || discriminate.
Defined.

End HandleFacts.

(** * Further properties of the codec *)

Section CodecEdgeFacts.
Import JSON Data Codec Examples.
Local Open Scope list_scope.

Lemma skip_whitespace_split (s : text) :
  exists w, forallb is_whitespace w = true /\ s = w ++ skip_whitespace s.
Proof.
  induction s as [|c s (w & Hw & Hs)]; [now exists []|].
  cbn [skip_whitespace]. destruct (is_whitespace c) eqn:Hc.
  - exists (c :: w). cbn. rewrite Hc, Hw. split; [reflexivity | now f_equal].
  - now exists [].
Qed.

Lemma skip_whitespace_nil (s : text) :
  skip_whitespace s = [] <-> forallb is_whitespace s = true.
Proof.
  induction s as [|c s IH]; [easy|]. cbn.
  destruct (is_whitespace c); [exact IH | easy].
Qed.

Lemma skip_whitespace_app (w s : text) :
  forallb is_whitespace w = true -> skip_whitespace (w ++ s) = skip_whitespace s.
Proof.
  induction w as [|c w IH]; [reflexivity|]. cbn.
  destruct (is_whitespace c); [exact IH | discriminate].
Qed.

Lemma strip_prefix (p s rest : text) : strip p s = Some rest -> s = p ++ rest.
Proof.
  revert s. induction p as [|a p IH]; intros s Hstrip.
  - now injection Hstrip as ->.
  - destruct s as [|b s]; [discriminate|]. cbn [strip] in Hstrip.
    destruct (N.eqb_spec a b) as [->|]; [|discriminate].
    cbn. f_equal. now apply IH.
Qed.

Lemma scan_token_null (s rest : text) :
  scan_token s = Some (TNull, rest) -> s = null_text ++ rest.
Proof.
  destruct s as [|c s]; [discriminate|]. unfold scan_token.
  repeat (match goal with
          | |- (if ?b then Some _ else _) = _ -> _ =>
              destruct b; [discriminate|]
          end).
  destruct (c =? 34)%N.
  { destruct (scan_string s) as [[str r]|]; discriminate. }
  destruct ((c =? 45)%N || is_digit c).
  { destruct (scan_number (c :: s)) as [[literal r]|]; discriminate. }
  destruct (strip true_text (c :: s)); [discriminate|].
  destruct (strip false_text (c :: s)); [discriminate|].
  destruct (strip null_text (c :: s)) as [r|] eqn:Hnull; [|discriminate].
  intros [= ->]. now apply strip_prefix.
Qed.

Lemma parse_value_null (fuel : nat) (ts rest : list token) :
  parse_value fuel ts = Some (Null, rest) -> ts = TNull :: rest.
Proof.
  destruct fuel as [|fuel]; [discriminate|].
  destruct ts as [|t ts]; [discriminate|].
  destruct t; try discriminate.
  - destruct ts as [|t ts].
    + cbn. destruct (parse_members fuel []) as [[ms r]|]; discriminate.
    + destruct (token_cases t RBrace I) as [->|Ht]; [discriminate|].
      rewrite parse_value_object by assumption.
      destruct (parse_members fuel (t :: ts)) as [[ms r]|]; discriminate.
  - destruct ts as [|t ts].
    + cbn. destruct (parse_elements fuel []) as [[vs r]|]; discriminate.
    + destruct (token_cases t RBracket I) as [->|Ht]; [discriminate|].
      rewrite parse_value_array by assumption.
      destruct (parse_elements fuel (t :: ts)) as [[vs r]|]; discriminate.
  - cbn [parse_value]. unfold number_of_literal.
    destruct (_ && _); [discriminate|].
    destruct (decimal_value literal) as [z|]; [|discriminate].
    destruct (safe_integer z); discriminate.
  - cbn [parse_value]. now intros [= ->].
Qed.

(** The texts [JSON.parse] reads as [null]: the word, with whitespace
    around it. *)
Lemma parse_null (s : text) :
  JSON.parse s = Some Null <->
  exists w1 w2,
    forallb is_whitespace w1 = true /\ forallb is_whitespace w2 = true
    /\ s = w1 ++ null_text ++ w2.
Proof.
  split.
  - unfold JSON.parse. cbn [tokenize].
    destruct (skip_whitespace_split s) as (w1 & Hw1 & Hs).
    destruct (skip_whitespace s) as [|c s1] eqn:Hskip.
    { cbn. discriminate. }
    destruct (scan_token (c :: s1)) as [[t rest]|] eqn:Htoken; [|discriminate].
    cbn [mbind option_bind].
    destruct (tokenize (List.length s) rest) as [ts|] eqn:Htokens; [|discriminate].
    cbn [mbind option_bind].
    destruct (parse_value _ (t :: ts)) as [[v r]|] eqn:Hvalue; [|discriminate].
    cbn [mbind option_bind]. destruct r; [|discriminate]. intros [= ->].
    apply parse_value_null in Hvalue. injection Hvalue as -> ->.
    apply scan_token_null in Htoken.
    exists w1, rest. split; [exact Hw1|]. split; [|congruence].
    destruct (List.length s) as [|n]; [discriminate|]. cbn [tokenize] in Htokens.
    apply skip_whitespace_nil.
    destruct (skip_whitespace rest); [reflexivity|].
    destruct (scan_token _) as [[t' r']|]; [|discriminate].
    cbn in Htokens. destruct (tokenize n r'); discriminate.
  - intros (w1 & w2 & Hw1 & Hw2 & ->).
    rewrite (parse_any_fuel _ (2 + List.length (w1 ++ null_text ++ w2)) 0)
      by lia.
    cbn [tokenize Nat.add]. rewrite (skip_whitespace_app w1 _ Hw1).
    cbn [null_text app skip_whitespace is_whitespace N.eqb Pos.eqb orb].
    change (scan_token (110 :: 117 :: 108 :: 108 :: w2)%N) with (Some (TNull, w2)).
    cbn [mbind option_bind].
    rewrite (proj2 (skip_whitespace_nil w2) Hw2). reflexivity.
Qed.

(** X9.  [fromJSON] throws a [TypeError] exactly on the texts that spell
    [null], with or without whitespace around the word, whatever the
    prototype; it returns a value exactly on the other valid texts. *)
Theorem fromJSON_TypeError
    (Method : Type) (proto : option (descriptor Method)) (json : text) :
  (fromJSON proto json = Throw TypeError <->
   exists w1 w2,
     forallb is_whitespace w1 = true /\ forallb is_whitespace w2 = true
     /\ json = w1 ++ null_text ++ w2)
  /\ ((exists b, fromJSON proto json = Return b) <->
      valid json /\ JSON.parse json <> Some Null).
Proof.
  rewrite <- parse_null. unfold fromJSON, valid.
  destruct (JSON.parse json) as [v|].
  - split.
    + destruct v; cbn; split; congruence.
    + split.
      * intros [b Hb]. split; [now exists v|].
        destruct v; cbn in Hb; congruence.
      * intros [_ Hnull]. destruct v; cbn; try congruence; eauto.
  - split; [split; discriminate|].
    split; [intros [b Hb]; discriminate | intros [[v Hv] _]; discriminate].
Qed.

Lemma fromJSON_TypeError_witness :
  fromJSON (Some Circle) (utf16 "  null ") = Throw TypeError.
Proof.
  apply (proj1 (fromJSON_TypeError string (Some Circle) (utf16 "  null "))).
  exists (utf16 "  "), (utf16 " "). repeat split.
Defined.

(** X10.  [getJSON] tells plain data apart: two plain values that differ,
    be it in a value, in a key or in the order their keys were created
    in, have different texts. *)
Theorem getJSON_injective (x y : value) :
  plain x = true -> plain y = true -> x <> y -> getJSON x <> getJSON y.
Proof.
  intros Hx Hy Hne Heq. apply Hne.
  assert (Some x = Some y) as Hsome
    by (rewrite <- (parse_stringify x Hx), <- (parse_stringify y Hy);
        unfold getJSON in Heq; now rewrite Heq).
  now injection Hsome.
Qed.

Lemma getJSON_injective_witness :
  getJSON (Array [Number 1; Number 2]) <> getJSON (Array [Number 12]).
Proof.
  apply getJSON_injective; [reflexivity | reflexivity | discriminate].
Defined.

End CodecEdgeFacts.

(** * The own keys of the objects [JSON.parse] makes *)

Section OwnKeyFacts.
Import JSON Data Codec Examples.
Local Open Scope list_scope.
















End OwnKeyFacts.

(** * Further properties of [Rectangle] *)

Section AreaFacts.
Import Shapes.

Lemma SFmul_comm (x y : SpecFloat.spec_float) :
  SpecFloat.SFmul FloatOps.prec FloatOps.emax x y
  = SpecFloat.SFmul FloatOps.prec FloatOps.emax y x.
Proof.
  destruct x as [sx|sx| |sx mx ex], y as [sy|sy| |sy my ey]; cbn;
    rewrite ?(xorb_comm sx sy); try reflexivity.
  now rewrite (Pos.mul_comm mx my), (Z.add_comm ex ey).
Qed.

Lemma mul_comm (x y : number) : PrimFloat.mul x y = PrimFloat.mul y x.
Proof.
  apply FloatAxioms.Prim2SF_inj. rewrite !FloatAxioms.mul_spec.
  apply SFmul_comm.
Qed.

(** X11.  The area does not depend on which side is given as the width:
    the two constructions with the sides exchanged have the same area, the
    very same binary64 value. *)
Theorem area_symmetric (w h : number) :
  getArea (new_Rectangle w h) = getArea (new_Rectangle h w).
Proof. apply mul_comm. Qed.

Lemma is_nan_spec (x : number) :
  PrimFloat.is_nan x = true <-> FloatOps.Prim2SF x = SpecFloat.S754_nan.
Proof.
  unfold FloatOps.Prim2SF. destruct (PrimFloat.is_nan x); [easy|].
  split; [discriminate|].
  destruct (PrimFloat.is_zero x); [discriminate|].
  destruct (PrimFloat.is_infinity x); [discriminate|].
  destruct (FloatOps.Z.frexp x) as [fr exp].
  destruct (SpecFloat.shr_fexp _ _ _ _ _) as [shr e'].
  destruct (SpecFloat.shr_m shr); discriminate.
Qed.

(** X12.  Nothing is validated: when a side is NaN, at construction or
    after an assignment, the area is NaN. *)
Theorem area_nan (r : Rectangle) :
  PrimFloat.is_nan (width r) = true \/ PrimFloat.is_nan (height r) = true ->
  PrimFloat.is_nan (getArea r) = true.
Proof.
  rewrite !is_nan_spec. unfold getArea. rewrite FloatAxioms.mul_spec.
  intros [->| ->]; [reflexivity|].
  now destruct (FloatOps.Prim2SF (width r)).
Qed.

Lemma area_nan_witness :
  PrimFloat.is_nan (getArea (set_height PrimFloat.nan (new_Rectangle 10%float 20%float))) = true.
Proof.
  apply (area_nan (set_height PrimFloat.nan (new_Rectangle 10%float 20%float))).
  right. reflexivity.
Defined.

Lemma is_zero_spec (x : number) :
  PrimFloat.is_zero x = true <-> exists s, FloatOps.Prim2SF x = SpecFloat.S754_zero s.
Proof.
  unfold PrimFloat.is_zero. rewrite FloatAxioms.eqb_spec.
  change (FloatOps.Prim2SF PrimFloat.zero) with (SpecFloat.S754_zero false).
  destruct (FloatOps.Prim2SF x) as [s|[]| |[] m e]; cbn;
    split; try discriminate; try (intros [s' H]; discriminate); eauto.
Qed.

Lemma is_infinity_spec (x : number) :
  PrimFloat.is_infinity x = true
  <-> exists s, FloatOps.Prim2SF x = SpecFloat.S754_infinity s.
Proof.
  unfold PrimFloat.is_infinity.
  rewrite FloatAxioms.eqb_spec, FloatAxioms.abs_spec.
  change (FloatOps.Prim2SF PrimFloat.infinity) with (SpecFloat.S754_infinity false).
  destruct (FloatOps.Prim2SF x) as [s|s| |s m e]; cbn;
    split; try discriminate; try (intros [s' H]; discriminate); eauto.
Qed.

(** X13.  A rectangle with a zero side has zero area when the other side
    is finite, and NaN for area when the other side is infinite. *)
Theorem area_zero_side (r : Rectangle) :
  PrimFloat.is_zero (width r) = true ->
  (PrimFloat.is_finite (height r) = true -> PrimFloat.is_zero (getArea r) = true)
  /\ (PrimFloat.is_infinity (height r) = true -> PrimFloat.is_nan (getArea r) = true).
Proof.
  intros Hzero. apply is_zero_spec in Hzero as [s Hw].
  rewrite is_zero_spec, is_nan_spec, is_infinity_spec.
  unfold getArea, PrimFloat.is_finite. rewrite FloatAxioms.mul_spec, Hw.
  split.
  - intros Hfinite. apply negb_true_iff, orb_false_elim in Hfinite as [Hnan Hinf].
    destruct (FloatOps.Prim2SF (height r)) as [s'|s'| |s' m e] eqn:Hh; cbn; eauto.
    + exfalso. assert (PrimFloat.is_infinity (height r) = true) as H
        by (apply is_infinity_spec; eauto). congruence.
    + exfalso. apply is_nan_spec in Hh. congruence.
  - intros [s' ->]. reflexivity.
Qed.

Lemma area_zero_side_witness :
  PrimFloat.is_zero (getArea (new_Rectangle 0%float 20%float)) = true
  /\ PrimFloat.is_nan (getArea (new_Rectangle 0%float PrimFloat.infinity)) = true.
Proof.
  split.
  - apply (area_zero_side (new_Rectangle 0%float 20%float)); reflexivity.
  - apply (area_zero_side (new_Rectangle 0%float PrimFloat.infinity)); reflexivity.
Defined.

End AreaFacts.
